(** * armfi: kinematic safety and motion planning core of the arm console

    A shallow embedding of the motion functions of
    [robot-control-system/frontend/src/App.vue] (joint safety enforcer,
    approximate forward kinematics, collision validator, Cartesian path
    planner, trajectory executor and action sequence player), and the
    properties of the specification checked against them.

    Numbers.  A JavaScript number is modelled by [jsval]: a real number,
    an infinity, [NaN], or [undefined] (which every arithmetic operator
    turns into [NaN]).  Finite arithmetic is exact arithmetic on [R] and
    [Math.sin], [Math.cos], [Math.sqrt], [Math.PI] are the real functions
    and constant: rounding, overflow and the sign of zero are not
    represented.  Comparisons are decided by [Rlt_dec], so concrete runs
    are established by rewriting rather than by evaluation.

    Rounding.  Where a property depends on the rounding of a result (the
    coordinates pushed by [sampleLinePath], the last value a trajectory
    closure writes), the formula is embedded a second time on binary64
    numbers, in the module [Binary64]: there every operation rounds as
    the double arithmetic of the language does.

    Effects.  The refs and module variables of the component form the
    record [state]; a call is a function on states that returns or
    throws.  Calls to [addLog], [console.error] and [ws.send] are recorded
    in the trace of the state.  A closure handed to
    [requestAnimationFrame] or [setTimeout] is kept in a queue as the data
    it captured, and the host runs the queues one frame or timer at a
    time ([animation_frame], [timers_fire]). *)

From Stdlib Require Import Floats.
From Stdlib Require Uint63.
From Stdlib Require Import Reals Lra Lia ZArith String List.
From stdpp Require Import base list.
Import ListNotations.

Open Scope R_scope.

(** ** JavaScript numbers *)

Inductive jsval : Type :=
  | Undefined
  | NaN
  | Inf (negative : bool)
  | Num (r : R).

Definition Rltb (a b : R) : bool := if Rlt_dec a b then true else false.
Definition Reqb (a b : R) : bool := if Req_dec_T a b then true else false.

(** [a < b] of the language: false as soon as an operand is not a number. *)
Definition jlt (a b : jsval) : bool :=
  match a, b with
  | Num x, Num y => Rltb x y
  | Num _, Inf n => negb n
  | Inf n, Num _ => n
  | Inf n, Inf m => n && negb m
  | _, _ => false
  end.

Definition jgt (a b : jsval) : bool := jlt b a.
Definition jle (a b : jsval) : bool :=
  match a, b with
  | Num x, Num y => negb (Rltb y x)
  | Num _, Inf n => negb n
  | Inf n, Num _ => n
  | Inf n, Inf m => n || negb m
  | _, _ => false
  end.
Definition jge (a b : jsval) : bool := jle b a.

Definition jneg (a : jsval) : jsval :=
  match a with
  | Num x => Num (- x)
  | Inf n => Inf (negb n)
  | _ => NaN
  end.

Definition jadd (a b : jsval) : jsval :=
  match a, b with
  | Num x, Num y => Num (x + y)
  | Num _, Inf n | Inf n, Num _ => Inf n
  | Inf n, Inf m => if Bool.eqb n m then Inf n else NaN
  | _, _ => NaN
  end.

Definition jsub (a b : jsval) : jsval := jadd a (jneg b).

Definition jmul (a b : jsval) : jsval :=
  match a, b with
  | Num x, Num y => Num (x * y)
  | Num x, Inf n | Inf n, Num x =>
      if Reqb x 0 then NaN else Inf (xorb n (Rltb x 0))
  | Inf n, Inf m => Inf (xorb n m)
  | _, _ => NaN
  end.

Definition jdiv (a b : jsval) : jsval :=
  match a, b with
  | Num x, Num y =>
      if Reqb y 0
      then (if Reqb x 0 then NaN else Inf (Rltb x 0))
      else Num (x / y)
  | Num _, Inf _ => Num 0
  | Inf n, Num y => Inf (xorb n (Rltb y 0))
  | _, _ => NaN
  end.

Definition Number_isNaN (a : jsval) : bool :=
  match a with NaN => true | _ => false end.

Definition Math_max (a b : jsval) : jsval :=
  match a, b with
  | Num x, Num y => Num (Rmax x y)
  | Inf false, (Num _ | Inf _) | (Num _ | Inf _), Inf false => Inf false
  | Inf true, (Num _ as v) | (Num _ as v), Inf true => v
  | Inf true, Inf true => Inf true
  | _, _ => NaN
  end.

Definition Math_min (a b : jsval) : jsval :=
  match a, b with
  | Num x, Num y => Num (Rmin x y)
  | Inf true, (Num _ | Inf _) | (Num _ | Inf _), Inf true => Inf true
  | Inf false, (Num _ as v) | (Num _ as v), Inf false => v
  | Inf false, Inf false => Inf false
  | _, _ => NaN
  end.

Definition Math_abs (a : jsval) : jsval :=
  match a with
  | Num x => Num (Rabs x)
  | Inf _ => Inf false
  | _ => NaN
  end.

Definition Rsign (x : R) : R :=
  if Rlt_dec 0 x then 1 else if Rlt_dec x 0 then -1 else 0.

Definition Math_sign (a : jsval) : jsval :=
  match a with
  | Num x => Num (Rsign x)
  | Inf n => Num (if n then -1 else 1)
  | _ => NaN
  end.

(** [a ?? 0]: only a missing value is replaced. *)
Definition nullish0 (a : jsval) : jsval :=
  match a with Undefined => Num 0 | _ => a end.

(** [a || 0]: [undefined], [NaN] and [0] are falsy. *)
Definition or0 (a : jsval) : jsval :=
  match a with
  | Undefined | NaN => Num 0
  | _ => a
  end.

(** Reading an array cell; a missing cell reads as [undefined]. *)
Definition cell (l : list jsval) (i : nat) : jsval :=
  match l !! i with Some v => v | None => Undefined end.

Declare Scope js_scope.
Delimit Scope js_scope with js.
Bind Scope js_scope with jsval.
Infix "+" := jadd : js_scope.
Infix "-" := jsub : js_scope.
Infix "*" := jmul : js_scope.
Infix "/" := jdiv : js_scope.
Notation "- x" := (jneg x) : js_scope.
Infix "<?" := jlt : js_scope.
Infix ">?" := jgt (at level 70) : js_scope.
Coercion Num : R >-> jsval.

(** ** Outcomes: a call returns a value or throws *)

Inductive error : Type :=
  | TypeError (what : string)
  | ReferenceError (name : string)
  | Error (message : string).

Inductive outcome (A : Type) : Type :=
  | Ok (a : A)
  | Throw (e : error).
Arguments Ok {A} a.
Arguments Throw {A} e.

Definition obind {A B} (m : outcome A) (k : A -> outcome B) : outcome B :=
  match m with Ok a => k a | Throw e => Throw e end.

Fixpoint sequence_outcome {A} (l : list (outcome A)) : outcome (list A) :=
  match l with
  | [] => Ok []
  | m :: rest =>
      obind m (fun a => obind (sequence_outcome rest) (fun r => Ok (a :: r)))
  end.

(** ** Configuration constants (App.vue, lines 816-841) *)

Record limit : Type := { min : R; max : R }.

Definition JOINT_LIMITS_DEG : list limit :=
  [ {| min := -170; max := 170 |};
    {| min := -15;  max := 135 |};
    {| min := 0;    max := 140 |};
    {| min := -90;  max := 120 |};
    {| min := -95;  max := 95 |};
    {| min := -180; max := 180 |} ].

Definition SHOULDER_ELBOW_MIN : R := -110.
Definition SHOULDER_ELBOW_MAX : R := 160.
Definition WRIST_COUPLED_LIMIT : R := 190.
Definition ELBOW_FORWARD_MAX : R := 145.

(** ** Joint safety enforcer *)

(** [clamp(value, min, max)]. *)
Definition clamp (value min max : jsval) : jsval :=
  if Number_isNaN value then min
  else Math_min (Math_max value min) max.

(** [JOINT_LIMITS_DEG[idx].min] for an index of the table. *)
Definition limit_at (idx : nat) : limit :=
  nth idx JOINT_LIMITS_DEG {| min := 0; max := 0 |}.

(** The callback of [rawAnglesDeg.map]: past the sixth cell
    [JOINT_LIMITS_DEG[idx]] is [undefined] and reading [.min] throws. *)
Definition clamp_cell (idx : nat) (deg : jsval) : outcome jsval :=
  match JOINT_LIMITS_DEG !! idx with
  | Some l => Ok (clamp deg (min l) (max l))
  | None => Throw (TypeError "JOINT_LIMITS_DEG[idx] is undefined")
  end.

(** The four stages of [enforceJointSafety], in the order of the source. *)

(** [rawAnglesDeg.map((deg, idx) => clamp(deg, min, max))] *)
Definition per_joint_clamp (rawAnglesDeg : list jsval) : outcome (list jsval) :=
  sequence_outcome (imap clamp_cell rawAnglesDeg).

(** Shoulder + elbow coupling: only [safe[2]] is rewritten. *)
Definition couple_shoulder_elbow (safe : list jsval) : list jsval :=
  let shoulderElbow := (cell safe 1 + cell safe 2)%js in
  if (shoulderElbow <? SHOULDER_ELBOW_MIN)%js then
    <[2%nat := clamp (SHOULDER_ELBOW_MIN - cell safe 1)%js
                (min (limit_at 2)) (max (limit_at 2))]> safe
  else if (shoulderElbow >? SHOULDER_ELBOW_MAX)%js then
    <[2%nat := clamp (SHOULDER_ELBOW_MAX - cell safe 1)%js
                (min (limit_at 2)) (max (limit_at 2))]> safe
  else safe.

(** Elbow forward reach. *)
Definition cap_elbow_forward (safe : list jsval) : list jsval :=
  if (cell safe 2 >? ELBOW_FORWARD_MAX)%js
  then <[2%nat := Num ELBOW_FORWARD_MAX]> safe
  else safe.

(** Wrist combined envelope: [safe[3]] is rewritten first, then [safe[4]]. *)
Definition couple_wrist (safe : list jsval) : list jsval :=
  let wristCombined := (Math_abs (cell safe 3) + Math_abs (cell safe 4))%js in
  if (wristCombined >? WRIST_COUPLED_LIMIT)%js then
    let excess := (wristCombined - WRIST_COUPLED_LIMIT)%js in
    let reduction := (excess / 2)%js in
    let safe :=
      <[3%nat := clamp (cell safe 3 - Math_sign (cell safe 3) * reduction)%js
                  (min (limit_at 3)) (max (limit_at 3))]> safe in
    <[4%nat := clamp (cell safe 4 - Math_sign (cell safe 4) * reduction)%js
                (min (limit_at 4)) (max (limit_at 4))]> safe
  else safe.

Definition enforceJointSafety (rawAnglesDeg : list jsval) : outcome (list jsval) :=
  obind (per_joint_clamp rawAnglesDeg) (fun safe =>
    Ok (couple_wrist (cap_elbow_forward (couple_shoulder_elbow safe)))).

(** ** Vocabulary of the enforcer properties *)

Definition within (l : limit) (x : R) : Prop := min l <= x <= max l.

(** A vector of six reals obeys the three coupling rules. *)
Definition coupled (v : list R) : Prop :=
  match v with
  | [_; s; e; w1; w2; _] =>
      SHOULDER_ELBOW_MIN <= s + e <= SHOULDER_ELBOW_MAX /\
      e <= ELBOW_FORWARD_MAX /\
      Rabs w1 + Rabs w2 <= WRIST_COUPLED_LIMIT
  | _ => False
  end.

Definition clampR (x lo hi : R) : R := Rmin (Rmax x lo) hi.

(** [couple_wrist] without the two final calls to [clamp]: the reduced
    wrist angles as they are before being clamped again. *)
Definition couple_wrist_unclamped (safe : list jsval) : list jsval :=
  let wristCombined := (Math_abs (cell safe 3) + Math_abs (cell safe 4))%js in
  if (wristCombined >? WRIST_COUPLED_LIMIT)%js then
    let excess := (wristCombined - WRIST_COUPLED_LIMIT)%js in
    let reduction := (excess / 2)%js in
    let safe :=
      <[3%nat := (cell safe 3 - Math_sign (cell safe 3) * reduction)%js]> safe in
    <[4%nat := (cell safe 4 - Math_sign (cell safe 4) * reduction)%js]> safe
  else safe.

(** ** Log messages and effects

    A message keeps the operands of the source's string concatenation:
    text stays text (a [${...}] inside a single-quoted literal is text),
    a number stays a number together with its formatting.  The calls to
    [addLog], [console.error] and [ws.send] are recorded as events, in
    the order they are made. *)

Inductive piece : Type :=
  | Str (s : string)                  (* a string operand *)
  | NumStr (v : jsval)                (* a number operand of [+] *)
  | Fixed (v : jsval) (digits : nat). (* [v.toFixed(digits)] *)

Definition message : Type := list piece.

Module Point.
Record t : Type := { x : jsval; y : jsval; z : jsval }.
End Point.

Inductive command : Type :=
  | move_to_angles (angles : list jsval)
  | move_to_position (position : Point.t).

Inductive wsmsg : Type :=
  | set_target (target : list jsval)
  | json_of (cmd : command).

Inductive event : Type :=
  | addLog (msg : message) (color : string)
  | console_error (what : string) (e : error)
  | ws_send (m : wsmsg).

(** [if (cond) { addLog(msg, color); risk = true }] *)
Definition flag (cond : bool) (msg : message) (color : string) : list event * bool :=
  if cond then ([addLog msg color], true) else ([], false).

(** Sequencing of two such statements on the same [risk] variable. *)
Definition also (a b : list event * bool) : list event * bool :=
  (a.1 ++ b.1, a.2 || b.2).

(** ** Joint angle objects *)

Record angles : Type := {
  joint1 : jsval; joint2 : jsval; joint3 : jsval;
  joint4 : jsval; joint5 : jsval; joint6 : jsval }.

Definition mapAnglesObjectToArray (angleObj : angles) : list jsval :=
  [ nullish0 (joint1 angleObj); nullish0 (joint2 angleObj);
    nullish0 (joint3 angleObj); nullish0 (joint4 angleObj);
    nullish0 (joint5 angleObj); nullish0 (joint6 angleObj) ].

Definition mapAnglesArrayToObject (angleArray : list jsval) : angles :=
  {| joint1 := cell angleArray 0; joint2 := cell angleArray 1;
     joint3 := cell angleArray 2; joint4 := cell angleArray 3;
     joint5 := cell angleArray 4; joint6 := cell angleArray 5 |}.

(** [Object.entries(angles)] of an object built by [mapAnglesArrayToObject]. *)
Definition Object_entries (a : angles) : list (string * jsval) :=
  [ ("joint1", joint1 a); ("joint2", joint2 a); ("joint3", joint3 a);
    ("joint4", joint4 a); ("joint5", joint5 a); ("joint6", joint6 a) ]%string.

(** ** Approximate forward kinematics *)

Definition Math_PI : R := PI.
Definition DEG2RAD : R := Math_PI / 180.
Definition RAD2DEG : R := 180 / Math_PI.

Definition Math_sin (a : jsval) : jsval :=
  match a with Num x => Num (sin x) | _ => NaN end.
Definition Math_cos (a : jsval) : jsval :=
  match a with Num x => Num (cos x) | _ => NaN end.
Definition Math_sqrt (a : jsval) : jsval :=
  match a with
  | Num x => if Rltb x 0 then NaN else Num (sqrt x)
  | Inf false => Inf false
  | _ => NaN
  end.

Module LINK_LENGTHS_M.
Definition baseHeight : R := 0.044.
Definition shoulder : R := 0.0215.
Definition upperArm : R := 0.0827.
Definition forearm : R := 0.0450.
Definition wrist : R := 0.0392.
Definition flange : R := 0.0540.
End LINK_LENGTHS_M.

Definition BASE_RADIUS_M : R := 0.09.
Definition BASE_CLEARANCE_M : R := 0.02.

Module KeyPoint.
Record t : Type :=
  { label : string; x : jsval; y : jsval; z : jsval; radial : jsval }.
End KeyPoint.

(** The body of the [for] loop of [computeForwardPositions], run over the
    remaining segments [(len, pitch, label)]. *)
Fixpoint forward_loop (baseYaw : jsval) (segments : list (R * jsval * string))
    (radial height : jsval) : list KeyPoint.t :=
  match segments with
  | [] => []
  | (len, pitch, lbl) :: rest =>
      let radial := (radial + Math_sin pitch * len)%js in
      let height := (height + Math_cos pitch * len)%js in
      let x := (radial * Math_cos baseYaw)%js in
      let y := (radial * Math_sin baseYaw)%js in
      let r := Math_sqrt (x * x + y * y)%js in
      {| KeyPoint.label := lbl; KeyPoint.x := x; KeyPoint.y := y;
         KeyPoint.z := height; KeyPoint.radial := r |}
      :: forward_loop baseYaw rest radial height
  end.

Definition computeForwardPositions (a : angles) : list KeyPoint.t :=
  let baseYaw := (or0 (joint1 a) * DEG2RAD)%js in
  let shoulder := (or0 (joint2 a) * DEG2RAD)%js in
  let elbow := (or0 (joint3 a) * DEG2RAD)%js in
  let wrist := (or0 (joint4 a) * DEG2RAD)%js in
  let segmentLengths :=
    [ LINK_LENGTHS_M.shoulder + LINK_LENGTHS_M.upperArm;
      LINK_LENGTHS_M.forearm;
      LINK_LENGTHS_M.wrist + LINK_LENGTHS_M.flange ] in
  let cumulativePitches :=
    [ shoulder; (shoulder + elbow)%js; (shoulder + elbow + wrist)%js ] in
  let labels := [ "肘部"; "腕部"; "末端" ]%string in
  forward_loop baseYaw (zip (zip segmentLengths cumulativePitches) labels)
    (Num 0) (Num LINK_LENGTHS_M.baseHeight).

(** ** Collision validator *)

Definition ground_msg (point : KeyPoint.t) : message :=
  [ Str "限制触发: ${point.label} 高度 ";
    Fixed (KeyPoint.z point * 1000)%js 0;
    Str "mm 低于地面" ].

Definition pedestal_msg : message :=
  [ Str "限制触发: ${point.label} 距基座 ${(point.radial * 1000).toFixed(0)}mm (< ";
    Fixed (Num (BASE_RADIUS_M * 1000)) 0;
    Str "mm)" ].

(** The callback of [points.forEach] in [geometryCollisionCheck]. *)
Definition check_point (baseSafeHeight : R) (point : KeyPoint.t) : list event * bool :=
  also
    (flag (KeyPoint.z point <? - 0.005)%js (ground_msg point) "text-amber-500")
    (flag ((KeyPoint.z point <? baseSafeHeight)%js &&
           (KeyPoint.radial point <? BASE_RADIUS_M)%js)
       pedestal_msg "text-amber-500").

Definition geometryCollisionCheck (a : angles) : list event * bool :=
  let points := computeForwardPositions a in
  let baseSafeHeight := LINK_LENGTHS_M.baseHeight + BASE_CLEARANCE_M in
  fold_left (fun acc point => also acc (check_point baseSafeHeight point))
    points ([], false).

Definition limit_msg (l : limit) : message :=
  [ Str "限制触发: ${key} ${value.toFixed(1)}° 超出 [${limit.min}, ";
    NumStr (max l); Str "]" ].

(** The callback of [Object.entries(angles).forEach]. *)
Definition check_entry (idx : nat) (entry : string * jsval) : list event * bool :=
  let value := entry.2 in
  match JOINT_LIMITS_DEG !! idx with
  | None => ([], false)
  | Some l =>
      flag ((value <? min l)%js || (value >? max l)%js)
        (limit_msg l) "text-amber-500"
  end.

Definition sum_below_msg : message :=
  [ Str "限制触发: Joint2+Joint3 = ${sumShoulderElbow.toFixed(1)}° < ";
    NumStr SHOULDER_ELBOW_MIN; Str "°" ].

Definition sum_above_msg : message :=
  [ Str "限制触发: Joint2+Joint3 = ${sumShoulderElbow.toFixed(1)}° > ";
    NumStr SHOULDER_ELBOW_MAX; Str "°" ].

Definition elbow_msg : message :=
  [ Str "限制触发: Joint3 前探 ${angles.joint3.toFixed(1)}° > ";
    NumStr ELBOW_FORWARD_MAX; Str "°" ].

Definition wrist_msg : message :=
  [ Str "限制触发: 腕部组合角 ${wristCombined.toFixed(1)}° > ";
    NumStr WRIST_COUPLED_LIMIT; Str "°" ].

Definition quickCollisionCheck (a : angles) : list event * bool :=
  let limits :=
    fold_left also (imap check_entry (Object_entries a)) ([], false) in
  let sumShoulderElbow := (joint2 a + joint3 a)%js in
  let wristCombined := (Math_abs (joint4 a) + Math_abs (joint5 a))%js in
  let geometry := geometryCollisionCheck a in
  also limits
    (also (flag (sumShoulderElbow <? SHOULDER_ELBOW_MIN)%js sum_below_msg "text-amber-500")
    (also (flag (sumShoulderElbow >? SHOULDER_ELBOW_MAX)%js sum_above_msg "text-amber-500")
    (also (flag (joint3 a >? ELBOW_FORWARD_MAX)%js elbow_msg "text-amber-500")
    (also (flag (wristCombined >? WRIST_COUPLED_LIMIT)%js wrist_msg "text-amber-500")
          (* [if (geometryCollisionCheck(angles)) risk = true] *)
          geometry)))).

(** ** Component state and the frame loop

    The refs and module variables the motion functions read and write,
    the clock, and the two queues of the host: callbacks waiting for the
    next animation frame and pending timers.  A closure scheduled by the
    source is kept as the data it captured. *)

Record keyframe : Type := {
  kf_angles : list jsval;           (* [angles], degrees *)
  kf_duration : jsval;              (* [duration], ms *)
  kf_gripper : option bool }.       (* [gripper], [None] when absent *)

Record sequence : Type := {
  seq_name : string;                (* [name] *)
  keyframes : list keyframe }.

Inductive callback : Type :=
  (* [interpolate] of [updateRobotJoints] *)
  | interpolate (startAngles goalAngles : list jsval) (startTime : R) (duration : jsval)
  (* [animate] of [playActionSequence], with the loop position it resolves to *)
  | animate_keyframe (sq : sequence) (i : nat)
      (startAngles endAngles : list jsval) (startTime : R) (duration : jsval)
  (* [animate] of [executeJointPath], with the target [moveToTarget] resumes on *)
  | animate_path (jointPath : list angles) (startTime : R) (totalDuration : jsval)
      (target : Point.t).

Inductive timer : Type :=
  (* [setTimeout(r, 50)] between two keyframes: the loop resumes at [i] *)
  | next_keyframe (sq : sequence) (i : nat).

Record state : Type := {
  targetAngles : list jsval;
  targetEndEffectorPos : option Point.t;
  endEffectorPos : Point.t;         (* as [parseFloat] reads the stored strings *)
  connected : bool;
  ws_ready : bool;                  (* [ws && ws.readyState === WebSocket.OPEN] *)
  isPlayingSequence : bool;
  currentSequence : option string;
  gripperOpen : bool;
  animationFrame : option nat;
  now : R;                          (* [Date.now()] *)
  frames : list (nat * callback);   (* [requestAnimationFrame] queue *)
  timers : list (R * timer);        (* [setTimeout] queue, with due times *)
  next_handle : nat;
  trace : list event }.

Definition set_targetAngles (v : list jsval) (s : state) : state :=
  {| targetAngles := v; targetEndEffectorPos := targetEndEffectorPos s;
     endEffectorPos := endEffectorPos s; connected := connected s;
     ws_ready := ws_ready s; isPlayingSequence := isPlayingSequence s;
     currentSequence := currentSequence s; gripperOpen := gripperOpen s;
     animationFrame := animationFrame s; now := now s; frames := frames s;
     timers := timers s; next_handle := next_handle s; trace := trace s |}.

Definition set_targetEndEffectorPos (v : option Point.t) (s : state) : state :=
  {| targetAngles := targetAngles s; targetEndEffectorPos := v;
     endEffectorPos := endEffectorPos s; connected := connected s;
     ws_ready := ws_ready s; isPlayingSequence := isPlayingSequence s;
     currentSequence := currentSequence s; gripperOpen := gripperOpen s;
     animationFrame := animationFrame s; now := now s; frames := frames s;
     timers := timers s; next_handle := next_handle s; trace := trace s |}.

Definition set_isPlayingSequence (v : bool) (s : state) : state :=
  {| targetAngles := targetAngles s; targetEndEffectorPos := targetEndEffectorPos s;
     endEffectorPos := endEffectorPos s; connected := connected s;
     ws_ready := ws_ready s; isPlayingSequence := v;
     currentSequence := currentSequence s; gripperOpen := gripperOpen s;
     animationFrame := animationFrame s; now := now s; frames := frames s;
     timers := timers s; next_handle := next_handle s; trace := trace s |}.

Definition set_currentSequence (v : option string) (s : state) : state :=
  {| targetAngles := targetAngles s; targetEndEffectorPos := targetEndEffectorPos s;
     endEffectorPos := endEffectorPos s; connected := connected s;
     ws_ready := ws_ready s; isPlayingSequence := isPlayingSequence s;
     currentSequence := v; gripperOpen := gripperOpen s;
     animationFrame := animationFrame s; now := now s; frames := frames s;
     timers := timers s; next_handle := next_handle s; trace := trace s |}.

Definition set_gripperOpen (v : bool) (s : state) : state :=
  {| targetAngles := targetAngles s; targetEndEffectorPos := targetEndEffectorPos s;
     endEffectorPos := endEffectorPos s; connected := connected s;
     ws_ready := ws_ready s; isPlayingSequence := isPlayingSequence s;
     currentSequence := currentSequence s; gripperOpen := v;
     animationFrame := animationFrame s; now := now s; frames := frames s;
     timers := timers s; next_handle := next_handle s; trace := trace s |}.

Definition set_animationFrame (v : option nat) (s : state) : state :=
  {| targetAngles := targetAngles s; targetEndEffectorPos := targetEndEffectorPos s;
     endEffectorPos := endEffectorPos s; connected := connected s;
     ws_ready := ws_ready s; isPlayingSequence := isPlayingSequence s;
     currentSequence := currentSequence s; gripperOpen := gripperOpen s;
     animationFrame := v; now := now s; frames := frames s;
     timers := timers s; next_handle := next_handle s; trace := trace s |}.

Definition set_now (v : R) (s : state) : state :=
  {| targetAngles := targetAngles s; targetEndEffectorPos := targetEndEffectorPos s;
     endEffectorPos := endEffectorPos s; connected := connected s;
     ws_ready := ws_ready s; isPlayingSequence := isPlayingSequence s;
     currentSequence := currentSequence s; gripperOpen := gripperOpen s;
     animationFrame := animationFrame s; now := v; frames := frames s;
     timers := timers s; next_handle := next_handle s; trace := trace s |}.

Definition set_frames (v : list (nat * callback)) (s : state) : state :=
  {| targetAngles := targetAngles s; targetEndEffectorPos := targetEndEffectorPos s;
     endEffectorPos := endEffectorPos s; connected := connected s;
     ws_ready := ws_ready s; isPlayingSequence := isPlayingSequence s;
     currentSequence := currentSequence s; gripperOpen := gripperOpen s;
     animationFrame := animationFrame s; now := now s; frames := v;
     timers := timers s; next_handle := next_handle s; trace := trace s |}.

Definition set_timers (v : list (R * timer)) (s : state) : state :=
  {| targetAngles := targetAngles s; targetEndEffectorPos := targetEndEffectorPos s;
     endEffectorPos := endEffectorPos s; connected := connected s;
     ws_ready := ws_ready s; isPlayingSequence := isPlayingSequence s;
     currentSequence := currentSequence s; gripperOpen := gripperOpen s;
     animationFrame := animationFrame s; now := now s; frames := frames s;
     timers := v; next_handle := next_handle s; trace := trace s |}.

Definition set_next_handle (v : nat) (s : state) : state :=
  {| targetAngles := targetAngles s; targetEndEffectorPos := targetEndEffectorPos s;
     endEffectorPos := endEffectorPos s; connected := connected s;
     ws_ready := ws_ready s; isPlayingSequence := isPlayingSequence s;
     currentSequence := currentSequence s; gripperOpen := gripperOpen s;
     animationFrame := animationFrame s; now := now s; frames := frames s;
     timers := timers s; next_handle := v; trace := trace s |}.

Definition set_trace (v : list event) (s : state) : state :=
  {| targetAngles := targetAngles s; targetEndEffectorPos := targetEndEffectorPos s;
     endEffectorPos := endEffectorPos s; connected := connected s;
     ws_ready := ws_ready s; isPlayingSequence := isPlayingSequence s;
     currentSequence := currentSequence s; gripperOpen := gripperOpen s;
     animationFrame := animationFrame s; now := now s; frames := frames s;
     timers := timers s; next_handle := next_handle s; trace := v |}.

(** The events of a call are appended to the trace, oldest first. *)
Definition emit (evs : list event) (s : state) : state :=
  set_trace (trace s ++ evs) s.

Definition log (msg : message) (color : string) (s : state) : state :=
  emit [addLog msg color] s.

(** [requestAnimationFrame(cb)]: queues [cb] and returns its handle. *)
Definition requestAnimationFrame (cb : callback) (s : state) : nat * state :=
  let h := next_handle s in
  (h, set_next_handle (S h) (set_frames (frames s ++ [(h, cb)]) s)).

(** [setTimeout(cb, delay)] *)
Definition setTimeout (cb : timer) (delay : R) (s : state) : state :=
  set_timers (timers s ++ [(now s + delay, cb)]) s.

Definition sendCommand (cmd : command) (s : state) : state :=
  if connected s && ws_ready s then
    match cmd with
    | move_to_angles _ =>
        let target :=
          match targetEndEffectorPos s with
          | Some p => [Point.x p; Point.y p; Point.z p]
          | None => [Num 0.1; Num (-0.2); Num 0.3]
          end in
        emit [ws_send (set_target target)] s
    | _ => emit [ws_send (json_of cmd)] s
    end
  else s.

(** ** Stateful calls: a call transforms the state and returns or throws *)

Definition M (A : Type) : Type := state -> state * outcome A.

Definition ret {A} (a : A) : M A := fun s => (s, Ok a).
Definition throw {A} (e : error) : M A := fun s => (s, Throw e).
Definition bind {A B} (m : M A) (k : A -> M B) : M B :=
  fun s => match m s with
           | (s', Ok a) => k a s'
           | (s', Throw e) => (s', Throw e)
           end.
Definition modify (f : state -> state) : M unit := fun s => (f s, Ok tt).
Definition try_catch {A} (m : M A) (handler : error -> M A) : M A :=
  fun s => match m s with
           | (s', Ok a) => (s', Ok a)
           | (s', Throw e) => handler e s'
           end.

Declare Scope m_scope.
Delimit Scope m_scope with M.
Notation "x <- m ;; k" := (bind m (fun x => k))
  (at level 100, m at next level, right associativity) : m_scope.
Notation "m ;; k" := (bind m (fun _ => k))
  (at level 100, right associativity) : m_scope.

Definition error_message (e : error) : string :=
  match e with
  | TypeError m | ReferenceError m | Error m => m
  end.

Definition Math_pow (a : jsval) (n : nat) : jsval :=
  match a with
  | Num x => Num (x ^ n)
  | Inf neg => match n with
               | O => Num 1
               | _ => Inf (neg && Nat.odd n)
               end
  | _ => match n with O => Num 1 | _ => NaN end
  end.

Definition Math_floor (a : jsval) : jsval :=
  match a with
  | Num x => Num (IZR (Int_part x))
  | Inf n => Inf n
  | _ => NaN
  end.

(** The array index a number denotes, if it is a non-negative integer. *)
Definition index_of (a : jsval) : option nat :=
  match a with
  | Num x =>
      let k := Int_part x in
      if Reqb x (IZR k) && (0 <=? k)%Z then Some (Z.to_nat k) else None
  | _ => None
  end.

Definition easeInOutCubic (t : jsval) : jsval :=
  if (t <? 0.5)%js
  then (4 * t * t * t)%js
  else (1 - Math_pow (-2 * t + 2)%js 3 / 2)%js.

(** ** getSafeAngles *)

Record safe_angles : Type := { deg : angles; rad : list jsval }.

Definition getSafeAngles (angleObj : angles) (source : message)
  : M (option safe_angles) :=
  (let rawArray := mapAnglesObjectToArray angleObj in
   safeArray <- (fun s => (s, enforceJointSafety rawArray)) ;;
   let safeObj := mapAnglesArrayToObject safeArray in
   let check := quickCollisionCheck safeObj in
   modify (emit check.1) ;;
   if check.2 then
     modify (log ([Str "[!] "] ++ source ++ [Str " 超出安全范围,已取消执行"])
               "text-amber-400") ;;
     ret None
   else
     ret (Some {| deg := safeObj;
                  rad := map (fun deg => (deg * DEG2RAD)%js) safeArray |}))%M.

(** ** Trajectory executor: single segment *)

(** One run of the closure [interpolate] of [updateRobotJoints].  The
    values written are those of the source's formulas in exact arithmetic;
    [Binary64.interpolated] below has the doubles of the joint formula. *)
Definition run_interpolate (startAngles goalAngles : list jsval)
    (startTime : R) (duration : jsval) (s : state) : state :=
  let elapsed := (Num (now s) - Num startTime)%js in
  let progress := Math_min (elapsed / duration)%js 1 in
  let eased :=
    if (progress <? 0.5)%js
    then (4 * progress * progress * progress)%js
    else (1 - Math_pow (-2 * progress + 2)%js 3 / 2)%js in
  let s :=
    set_targetAngles
      (imap (fun i start => (start + (cell goalAngles i - start) * eased)%js)
         startAngles) s in
  if (progress <? 1)%js then
    (requestAnimationFrame (interpolate startAngles goalAngles startTime duration) s).2
  else if connected s then sendCommand (move_to_angles goalAngles) s
  else s.

(** [updateRobotJoints(angles, duration = 1500)] *)
Definition updateRobotJoints (a : angles) (duration : jsval) : M unit :=
  (let duration := match duration with Undefined => Num 1500 | d => d end in
   safe <- getSafeAngles a [Str "手动控制"] ;;
   match safe with
   | None => ret tt
   | Some safe =>
       let goalAngles := rad safe in
       fun s =>
         let startAngles := targetAngles s in
         let startTime := now s in
         (run_interpolate startAngles goalAngles startTime duration s, Ok tt)
   end)%M.

(** ** Cartesian path planner *)

(** [sampleLinePath(start, end, samples = 15)] for an integer sample count:
    the loop runs for [i = 0 .. samples].  The planner hands the points to
    the inverse-kinematics service and does not compute with them; their
    coordinates are the exact values here, [Binary64.sampleLinePath] below
    has the doubles. *)
Definition sampleLinePath (start end_ : Point.t) (samples : option Z)
  : list Point.t :=
  let samples := default 15%Z samples in
  map (fun i : nat =>
         let t := (Num (INR i) / Num (IZR samples))%js in
         {| Point.x := (Point.x start + (Point.x end_ - Point.x start) * t)%js;
            Point.y := (Point.y start + (Point.y end_ - Point.y start) * t)%js;
            Point.z := (Point.z start + (Point.z end_ - Point.z start) * t)%js |})
    (seq 0 (Z.to_nat (samples + 1))).

(** What the request to the inverse-kinematics service yields: [fetch] or
    [response.json()] throws, or a JSON result is read. *)
Inductive ik_reply : Type :=
  | ik_throws (e : error)
  | ik_result (success : bool) (result_angles : angles) (result_message : option string).

Definition ik_oracle : Type := Point.t -> ik_reply.

(** [callIK(position)]: the events of the call and its result. *)
Definition callIK (ik : ik_oracle) (position : Point.t) : list event * outcome angles :=
  let attempt : outcome angles :=
    match ik position with
    | ik_throws e => Throw e
    | ik_result true a _ =>
        obind (enforceJointSafety (mapAnglesObjectToArray a)) (fun safeAngles =>
        Ok (mapAnglesArrayToObject safeAngles))
    | ik_result false _ m =>
        Throw (Error (match m with
                      | Some (String c rest) => String c rest
                      | _ => "IK计算failed"
                      end))
    end in
  match attempt with
  | Ok a => ([], Ok a)
  | Throw e => ([console_error "IK调用failed:" e], Throw e)
  end.

(** The code after [await executeJointPath(...)] in [moveToTarget]. *)
Definition after_path (target : Point.t) (s : state) : state :=
  let s := log [Str "[OK] 到达目标位置"] "text-emerald-400" s in
  if connected s then sendCommand (move_to_position target) s else s.

Definition angles_to_rad (f : (angles -> jsval) -> jsval) : list jsval :=
  [ (f joint1 * Math_PI / 180)%js; (f joint2 * Math_PI / 180)%js;
    (f joint3 * Math_PI / 180)%js; (f joint4 * Math_PI / 180)%js;
    (f joint5 * Math_PI / 180)%js; (f joint6 * Math_PI / 180)%js ].

(** One run of the closure [animate] of [executeJointPath].  Reading a
    joint of a missing waypoint throws inside the callback, which then
    writes nothing and is not rescheduled. *)
Definition run_animate_path (jointPath : list angles) (startTime : R)
    (totalDuration : jsval) (target : Point.t) (s : state) : state :=
  let pathLength := length jointPath in
  let elapsed := (Num (now s) - Num startTime)%js in
  let progress := Math_min (elapsed / totalDuration)%js 1 in
  let segmentFloat := (progress * Num (INR pathLength - 1))%js in
  let segmentIndex := Math_floor segmentFloat in
  let segmentProgress := (segmentFloat - segmentIndex)%js in
  if jge segmentIndex (Num (INR pathLength - 1)) then
    match jointPath !! (pathLength - 1)%nat with
    | None => s
    | Some finalAngles =>
        after_path target
          (set_targetAngles (angles_to_rad (fun j => j finalAngles)) s)
    end
  else
    match index_of segmentIndex with
    | None => s
    | Some k =>
        match jointPath !! k, jointPath !! S k with
        | Some p1, Some p2 =>
            let s :=
              set_targetAngles
                (angles_to_rad (fun j => (j p1 + (j p2 - j p1) * segmentProgress)%js)) s in
            (requestAnimationFrame
               (animate_path jointPath startTime totalDuration target) s).2
        | _, _ => s
        end
    end.

(** [executeJointPath(jointPath, totalDuration)], followed by the rest of
    [moveToTarget] once its promise resolves. *)
Definition executeJointPath (jointPath : list angles) (totalDuration : jsval)
    (target : Point.t) (s : state) : state :=
  match jointPath with
  | [] => after_path target s
  | _ => run_animate_path jointPath (now s) totalDuration target s
  end.

Inductive plan_exit : Type :=
  | planned (jointPath : list angles)   (* the loop ran to its end *)
  | collided                            (* [collisionDetected = true; break] *)
  | ik_failed.                          (* [return] in the inner [catch] *)

(** The [for] loop of [moveToTarget] from index [i] on. *)
Fixpoint plan_loop (ik : ik_oracle) (path3D : list Point.t) (i : nat)
    (jointPath : list angles) (s : state) : state * plan_exit :=
  match path3D with
  | [] => (s, planned jointPath)
  | point :: rest =>
      let call := callIK ik point in
      let s := emit call.1 s in
      match call.2 with
      | Throw e =>
          (log [Str "路径点${i}IKfailed: "; Str (error_message e)] "text-red-400" s,
           ik_failed)
      | Ok safeAngles =>
          let check := quickCollisionCheck safeAngles in
          let s := emit check.1 s in
          if check.2 then
            (log [Str "[!] 路径点"; NumStr (Num (INR i)); Str "存在碰撞风险,取消移动"]
               "text-amber-400" s,
             collided)
          else plan_loop ik rest (S i) (jointPath ++ [safeAngles]) s
      end
  end.

(** [moveToTarget(x, y, z, samples = 15)], up to its first suspension on an
    animation frame.  The requests to the service are awaited one after
    the other; what other callbacks do in between is not described. *)
Definition moveToTarget (ik : ik_oracle) (x y z : jsval) (samples : option Z)
  : M unit :=
  try_catch
    (match z with
     | Undefined =>
         throw (TypeError "Cannot read properties of undefined (reading 'toFixed')")
     | _ => ret tt
     end ;;
     modify (log [Str "规划路径: 目标(${x.toFixed(3)}, ${y.toFixed(3)}, ";
                  Fixed z 3; Str ")"] "text-blue-400") ;;
     fun s =>
       let currentPos := endEffectorPos s in
       let target := {| Point.x := x; Point.y := y; Point.z := z |} in
       let path3D := sampleLinePath currentPos target samples in
       let s := log [Str "生成"; NumStr (Num (INR (length path3D))); Str "个路径点"]
                  "text-zinc-500" s in
       match plan_loop ik path3D 0 [] s with
       | (s, ik_failed) => (s, Ok tt)
       | (s, collided) => (s, Ok tt)
       | (s, planned jointPath) =>
           let s := log [Str "IK计算完成,开始执行..."] "text-emerald-400" s in
           let s := set_targetEndEffectorPos (Some target) s in
           (executeJointPath jointPath (Num 2000) target s, Ok tt)
       end)%M
    (fun error =>
       modify (log [Str "路径规划failed: "; Str (error_message error)] "text-red-400")).

(** ** Action sequence player *)

Definition kf (a : list R) (duration : R) : keyframe :=
  {| kf_angles := Num <$> a; kf_duration := Num duration; kf_gripper := None |}.
Definition kf_grip (a : list R) (duration : R) (g : bool) : keyframe :=
  {| kf_angles := Num <$> a; kf_duration := Num duration; kf_gripper := Some g |}.

Definition actionLibrary : list (string * sequence) :=
  [ ("wave", {| seq_name := "挥手"; keyframes :=
      [ kf [0; -30; 45; 0; -15; 0] 1000;
        kf [15; -30; 45; 0; -15; 30] 500;
        kf [-15; -30; 45; 0; -15; -30] 500;
        kf [15; -30; 45; 0; -15; 30] 500;
        kf [0; 0; 0; 0; 0; 0] 1000 ] |});
    ("grab_demo", {| seq_name := "抓取Demo"; keyframes :=
      [ kf [0; -20; 30; 0; -10; 0] 1000;
        kf [0; -45; 60; 0; -15; 0] 800;
        kf_grip [0; -45; 60; 0; -15; 0] 300 false;
        kf [0; -20; 30; 0; -10; 0] 800;
        kf [45; -20; 30; 0; -10; 45] 1000;
        kf [45; -45; 60; 0; -15; 45] 800;
        kf_grip [45; -45; 60; 0; -15; 45] 300 true;
        kf [0; 0; 0; 0; 0; 0] 1200 ] |});
    ("dance", {| seq_name := "小舞"; keyframes :=
      [ kf [0; -30; 30; 0; 0; 0] 500;
        kf [30; -30; 30; 30; 0; 30] 400;
        kf [-30; -30; 30; -30; 0; -30] 400;
        kf [30; -30; 30; 30; 0; 30] 400;
        kf [0; 0; 60; 0; -60; 0] 600;
        kf [0; 0; 0; 0; 0; 0] 800 ] |});
    ("spin", {| seq_name := "原地转圈"; keyframes :=
      [ kf [179; 0; 0; 0; 0; 0] 2000;
        kf [-179; 0; 0; 0; 0; 0] 4000;
        kf [0; 0; 0; 0; 0; 0] 2000 ] |});
    ("nod", {| seq_name := "点头"; keyframes :=
      [ kf [0; 0; 0; 0; 30; 0] 300;
        kf [0; 0; 0; 0; -20; 0] 300;
        kf [0; 0; 0; 0; 30; 0] 300;
        kf [0; 0; 0; 0; 0; 0] 300 ] |});
    ("greet", {| seq_name := "打招呼"; keyframes :=
      [ kf [0; -40; 50; 0; -10; 0] 800;
        kf [0; -40; 50; 0; -10; 30] 300;
        kf [0; -40; 50; 0; -10; -30] 300;
        kf [0; -40; 50; 0; -10; 30] 300;
        kf [0; -40; 50; 0; -10; 0] 300;
        kf [0; 0; 0; 0; 0; 0] 1000 ] |}) ]%string.

(** [actionLibrary[name]] for an own key of the library. *)
Fixpoint library_lookup (lib : list (string * sequence)) (name : string)
  : option sequence :=
  match lib with
  | [] => None
  | (k, sq) :: rest => if String.eqb k name then Some sq else library_lookup rest name
  end.

(** The argument of [playActionSequence]: a library key or a sequence object. *)
Inductive sequenceOrName : Type :=
  | by_name (name : string)
  | by_value (sq : sequence).

(** The [finally] block of [playActionSequence]. *)
Definition finally_clear (s : state) : state :=
  set_currentSequence None (set_isPlayingSequence false s).

(** The loop of [playActionSequence] left through its condition: the
    completion message, then the [finally] block. *)
Definition sequence_done (sq : sequence) (s : state) : state :=
  finally_clear (log [Str "[OK] 动作完成: "; Str (seq_name sq)] "text-emerald-400" s).

(** The code after the promise of keyframe [i] resolves: the pause between
    keyframes, or the end of the loop after the last one. *)
Definition after_keyframe (sq : sequence) (i : nat) (s : state) : state :=
  if (S i <? length (keyframes sq))%nat
  then setTimeout (next_keyframe sq (S i)) 50 s
  else sequence_done sq s.

(** One run of the closure [animate] of [playActionSequence]. *)
Definition run_animate_keyframe (sq : sequence) (i : nat)
    (startAngles endAngles : list jsval) (startTime : R) (duration : jsval)
    (s : state) : state :=
  let elapsed := (Num (now s) - Num startTime)%js in
  let progress := Math_min (elapsed / duration)%js 1 in
  let easedProgress := easeInOutCubic progress in
  let interpolatedAngles :=
    imap (fun idx start => (start + (cell endAngles idx - start) * easedProgress)%js)
      startAngles in
  let s := set_targetAngles interpolatedAngles s in
  if (progress <? 1)%js then
    let r := requestAnimationFrame
               (animate_keyframe sq i startAngles endAngles startTime duration) s in
    set_animationFrame (Some r.1) r.2
  else after_keyframe sq i s.

(** The body of the [for] loop at index [i], up to the first run of [animate]. *)
Definition play_keyframe (sq : sequence) (i : nat) : M unit :=
  match keyframes sq !! i with
  | None => modify (sequence_done sq)
  | Some keyframe =>
      (safe <- getSafeAngles (mapAnglesArrayToObject (kf_angles keyframe))
                 [Str "动作关键帧 #"; NumStr (Num (INR i + 1))] ;;
       match safe with
       | None =>
           (* flags cleared, [return], then the [finally] block *)
           modify (fun s => finally_clear
                              (set_currentSequence None (set_isPlayingSequence false s)))
       | Some safe =>
           fun s =>
             let startAngles := targetAngles s in
             let endAngles := rad safe in
             let duration := kf_duration keyframe in
             let s :=
               match kf_gripper keyframe with
               | Some g =>
                   (* ['夹爪: ' + keyframe.gripper ? '开启' : '关闭']: the
                      condition is the concatenated string, which is truthy *)
                   log [Str "开启"] "text-zinc-400" (set_gripperOpen g s)
               | None => s
               end in
             let startTime := now s in
             (run_animate_keyframe sq i startAngles endAngles startTime duration s,
              Ok tt)
       end)%M
  end.

(** The identifier [sequenceName] read at line 1039 is declared nowhere in
    the component (the parameter is [sequenceOrName], the local is
    [sequence]): evaluating it throws. *)
Definition sequenceName : M (option string) :=
  throw (ReferenceError "sequenceName is not defined").

(** [playActionSequence] from its second guard on, for the sequence found. *)
Definition play_found (sq : sequence) : M unit :=
  fun s =>
    if isPlayingSequence s then
      (log [Str "动作序列进行中..."] "text-amber-400" s, Ok tt)
    else
      (modify (set_isPlayingSequence true) ;;
       v <- sequenceName ;;
       modify (set_currentSequence v) ;;
       modify (log [Str "🎭 开始执行: "; Str (seq_name sq)] "text-primary") ;;
       try_catch (play_keyframe sq 0)
         (fun error =>
            modify (fun s =>
              finally_clear
                (log [Str "动作执行failed: "; Str (error_message error)]
                   "text-red-400" s))))%M s.

(** [playActionSequence(sequenceOrName)], up to its first suspension. *)
Definition playActionSequence (arg : sequenceOrName) : M unit :=
  match arg with
  | by_name name =>
      match library_lookup actionLibrary name with
      | None => modify (log [Str "Unknown action: "; Str name] "text-red-400")
      | Some sq => play_found sq
      end
  | by_value sq => play_found sq
  end.

(** ** The host loop *)

Definition run_callback (cb : callback) (s : state) : state :=
  match cb with
  | interpolate startAngles goalAngles startTime duration =>
      run_interpolate startAngles goalAngles startTime duration s
  | animate_keyframe sq i startAngles endAngles startTime duration =>
      run_animate_keyframe sq i startAngles endAngles startTime duration s
  | animate_path jointPath startTime totalDuration target =>
      run_animate_path jointPath startTime totalDuration target s
  end.

(** An animation frame at clock [t]: the callbacks queued so far run in
    the order they were queued; those they queue wait for the next frame. *)
Definition animation_frame (t : R) (s : state) : state :=
  let queued := frames s in
  fold_left (fun s hc => run_callback hc.2 s) queued (set_frames [] (set_now t s)).

Definition run_timer (tm : timer) (s : state) : state :=
  match tm with
  | next_keyframe sq i => (play_keyframe sq i s).1
  end.

(** The clock reaches [t]: the timers due by then fire in queue order. *)
Definition timers_fire (t : R) (s : state) : state :=
  let due := List.filter (fun dt => negb (Rltb t dt.1)) (timers s) in
  let later := List.filter (fun dt => Rltb t dt.1) (timers s) in
  fold_left (fun s dt => run_timer dt.2 s) due (set_timers later (set_now t s)).

(** What the host does next, and a run of the component under a list of
    such steps. *)
Inductive step : Type :=
  | frame (t : R)
  | timeout (t : R)
  | call_updateRobotJoints (a : angles) (duration : jsval)
  | call_playActionSequence (arg : sequenceOrName)
  | call_moveToTarget (ik : ik_oracle) (x y z : jsval) (samples : option Z).

Definition do_step (st : step) (s : state) : state :=
  match st with
  | frame t => animation_frame t s
  | timeout t => timers_fire t s
  | call_updateRobotJoints a duration => (updateRobotJoints a duration s).1
  | call_playActionSequence arg => (playActionSequence arg s).1
  | call_moveToTarget ik x y z samples => (moveToTarget ik x y z samples s).1
  end.

Definition run (steps : list step) (s : state) : state :=
  fold_left (fun s st => do_step st s) steps s.

(** The component as mounted: all refs at their initial values. *)
Definition initial_state : state :=
  {| targetAngles := Num <$> [0; 0; 0; 0; 0; 0];
     targetEndEffectorPos := None;
     endEffectorPos := {| Point.x := Num 0; Point.y := Num 0; Point.z := Num 0 |};
     connected := false; ws_ready := false;
     isPlayingSequence := false; currentSequence := None;
     gripperOpen := false; animationFrame := None;
     now := 0; frames := []; timers := []; next_handle := 0%nat;
     trace := [] |}.

(** ** Vocabulary of the planner properties *)

(** A Cartesian point with real coordinates. *)
Definition real_point (x y z : R) : Point.t :=
  {| Point.x := Num x; Point.y := Num y; Point.z := Num z |}.

(** The point of the segment from [a] to [b] at parameter [t]. *)
Definition lerp_point (ax ay az bx by_ bz t : R) : Point.t :=
  real_point (ax + (bx - ax) * t) (ay + (by_ - ay) * t) (az + (bz - az) * t).

(** ** Vocabulary of the validator properties *)

(** A joint angle object with six real angles (degrees). *)
Definition real_angles (j1 j2 j3 j4 j5 j6 : R) : angles :=
  {| joint1 := Num j1; joint2 := Num j2; joint3 := Num j3;
     joint4 := Num j4; joint5 := Num j5; joint6 := Num j6 |}.

(** The validator reports [msg]: it calls [addLog(msg, 'text-amber-500')]. *)
Definition reports (a : angles) (msg : message) : Prop :=
  In (addLog msg "text-amber-500") (quickCollisionCheck a).1.

(** Radial offset and height of the three key points of the planar chain,
    for shoulder, elbow and wrist angles in degrees. *)
Definition chain (j2 j3 j4 : R) : list (R * R) :=
  let p1 := j2 * DEG2RAD in
  let p2 := j2 * DEG2RAD + j3 * DEG2RAD in
  let p3 := j2 * DEG2RAD + j3 * DEG2RAD + j4 * DEG2RAD in
  let l1 := LINK_LENGTHS_M.shoulder + LINK_LENGTHS_M.upperArm in
  let l2 := LINK_LENGTHS_M.forearm in
  let l3 := LINK_LENGTHS_M.wrist + LINK_LENGTHS_M.flange in
  let r1 := 0 + sin p1 * l1 in
  let r2 := r1 + sin p2 * l2 in
  let r3 := r2 + sin p3 * l3 in
  let h1 := LINK_LENGTHS_M.baseHeight + cos p1 * l1 in
  let h2 := h1 + cos p2 * l2 in
  let h3 := h2 + cos p3 * l3 in
  [ (r1, h1); (r2, h2); (r3, h3) ].

(** A key point that triggers neither geometric test. *)
Definition clear (rh : R * R) : Prop :=
  ~ rh.2 < - 0.005 /\
  ~ (rh.2 < LINK_LENGTHS_M.baseHeight + BASE_CLEARANCE_M /\ Rabs rh.1 < BASE_RADIUS_M).

(** The events of [moveToTarget] when the request for a sample throws
    [e], for a target height [z] and a path of [n] points. *)
Definition ik_failure_events (z : jsval) (n : nat) (e : error) : list event :=
  [ addLog [Str "规划路径: 目标(${x.toFixed(3)}, ${y.toFixed(3)}, "; Fixed z 3; Str ")"]
      "text-blue-400";
    addLog [Str "生成"; NumStr (Num (INR n)); Str "个路径点"] "text-zinc-500";
    console_error "IK调用failed:" e;
    addLog [Str "路径点${i}IKfailed: "; Str (error_message e)] "text-red-400" ].

(** The events of [moveToTarget] when sample [i] solves to a pose [a] that
    the validator refuses. *)
Definition collision_events (z : jsval) (n : nat) (i : nat) (a : angles) : list event :=
  [ addLog [Str "规划路径: 目标(${x.toFixed(3)}, ${y.toFixed(3)}, "; Fixed z 3; Str ")"]
      "text-blue-400";
    addLog [Str "生成"; NumStr (Num (INR n)); Str "个路径点"] "text-zinc-500" ] ++
  (quickCollisionCheck a).1 ++
  [ addLog [Str "[!] 路径点"; NumStr (Num (INR i)); Str "存在碰撞风险,取消移动"]
      "text-amber-400" ].

(** An oracle that solves every point on the plane x = 0 to the home pose
    and fails everywhere else, and one that always fails. *)
Definition ik_beyond_origin : ik_oracle :=
  fun p =>
    match Point.x p with
    | Num v =>
        if Reqb v 0 then ik_result true (real_angles 0 0 0 0 0 0) None
        else ik_throws (Error "unreachable")
    | _ => ik_throws (Error "unreachable")
    end.

Definition ik_nowhere : ik_oracle := fun _ => ik_throws (Error "unreachable").

(** ** Vocabulary of the executor properties *)

(** The cubic ease-in-out on a real progress. *)
Definition easeR (p : R) : R :=
  if Rlt_dec p 0.5 then 4 * p * p * p else 1 - (-2 * p + 2) ^ 3 / 2.

(** Joint-wise interpolation between two real vectors at eased progress [e]. *)
Definition lerpR (e : R) (startAngles goalAngles : list R) : list R :=
  imap (fun i start => start + (nth i goalAngles 0 - start) * e) startAngles.

(** Degrees to radians, joint by joint, as [safeArray.map(deg => deg * DEG2RAD)]. *)
Definition to_rad (v : list R) : list R := map (fun deg => deg * DEG2RAD) v.

(** Two poses and a run of the component: a slow move to [pose_turned]
    (3000 ms) is started, and one second later a move home with the
    default duration (1500 ms). *)
Definition pose_turned : angles := real_angles 90 0 0 0 0 0.
Definition pose_home : angles := real_angles 0 0 0 0 0 0.

Definition overlapping_runs : list step :=
  [ call_updateRobotJoints pose_turned (Num 3000);
    frame 1000;
    call_updateRobotJoints pose_home Undefined ].

Definition overlapping_runs_to_the_end : list step :=
  overlapping_runs ++ [ frame 2500; frame 3000 ].

(** ** Vocabulary of the further properties *)

(** A cell that holds a number: a real, an infinity or [NaN]. *)
Definition is_number (v : jsval) : Prop := v <> Undefined.

(** The real that [clamp] treats a number like, between [lo] and [hi]:
    [NaN] and [-Infinity] like [lo], [Infinity] like [hi]. *)
Definition stand_in (lo hi : R) (v : jsval) : R :=
  match v with
  | Num x => x
  | Inf false => hi
  | _ => lo
  end.

(** ** Binary64 arithmetic of the interpolation formulas

    The coordinates pushed by [sampleLinePath] and the joint values
    written by the trajectory closures are doubles, computed by
    [start + (end - start) * t] with a rounding after every operation.
    Here these formulas are embedded on the binary64 numbers themselves
    (the primitive floats, specified by [SpecFloat]): what the code
    computes to the last bit, where the real numbers above give the
    value without rounding. *)

Module Binary64.

Record point : Type := { x : float; y : float; z : float }.

(** The double that holds a loop counter or a sample count: the integer
    itself below 2^53, where [i++] is exact. *)
Definition of_Z (n : Z) : float := PrimFloat.of_uint63 (Uint63.of_Z n).

(** [sampleLinePath(start, end, samples = 15)] for an integer sample count
    below 2^53: the loop runs for [i = 0 .. samples].  (From 2^53 on,
    [i++] leaves [i] as it is and the loop of the source does not end.) *)
Definition sampleLinePath (start end_ : point) (samples : option Z)
  : list point :=
  let samples := default 15%Z samples in
  map (fun i : nat =>
         let t := (of_Z (Z.of_nat i) / of_Z samples)%float in
         {| x := (x start + (x end_ - x start) * t)%float;
            y := (y start + (y end_ - y start) * t)%float;
            z := (z start + (z end_ - z start) * t)%float |})
    (seq 0 (Z.to_nat (samples + 1))).

(** The cell [start + (goalAngles[i] - start) * eased] that the closure
    [interpolate] of [updateRobotJoints] writes for one joint. *)
Definition interpolated (start goal eased : float) : float :=
  (start + (goal - start) * eased)%float.

(** The point the loop body of [sampleLinePath] pushes at parameter [t]. *)
Definition sample (start end_ : point) (t : float) : point :=
  {| x := (x start + (x end_ - x start) * t)%float;
     y := (y start + (y end_ - y start) * t)%float;
     z := (z start + (z end_ - z start) * t)%float |}.

(** [a.x === b.x && a.y === b.y && a.z === b.z]: equal as numbers. *)
Definition same_point (a b : point) : Prop :=
  (x a =? x b)%float = true /\
  (y a =? y b)%float = true /\
  (z a =? z b)%float = true.

(** The coordinates of [start] are finite and no difference
    [end - start] overflows. *)
Definition finite_segment (start end_ : point) : Prop :=
  PrimFloat.is_finite (x start) = true /\
  PrimFloat.is_finite (x end_ - x start)%float = true /\
  PrimFloat.is_finite (y start) = true /\
  PrimFloat.is_finite (y end_ - y start)%float = true /\
  PrimFloat.is_finite (z start) = true /\
  PrimFloat.is_finite (z end_ - z start)%float = true.

End Binary64.

(** ** A run in flight

    The component one second after a slow move to [pose_turned] was
    started: the closure of that move is waiting for the next frame. *)
Definition first_run_in_flight : state :=
  run [ call_updateRobotJoints pose_turned (Num 3000); frame 1000 ] initial_state.

(** ** Vocabulary of the planner and executor properties

    Two inverse-kinematics services that answer every request alike: with
    a pose folded over under the ground plane, and with the home pose;
    and the component at mount time with the socket to the backend open. *)
Definition ik_folded : ik_oracle :=
  fun _ => ik_result true (real_angles 0 90 0 90 0 0) None.

Definition ik_home : ik_oracle :=
  fun _ => ik_result true (real_angles 0 0 0 0 0 0) None.

Definition online_state : state :=
  {| targetAngles := Num <$> [0; 0; 0; 0; 0; 0];
     targetEndEffectorPos := None;
     endEffectorPos := {| Point.x := Num 0; Point.y := Num 0; Point.z := Num 0 |};
     connected := true; ws_ready := true;
     isPlayingSequence := false; currentSequence := None;
     gripperOpen := false; animationFrame := None;
     now := 0; frames := []; timers := []; next_handle := 0%nat;
     trace := [] |}.

(* ================================================================== *)
(** * Properties *)

(** ** Joint safety enforcer *)

Ltac no_dec t :=
  lazymatch t with
  | context [Rle_dec _ _] => fail
  | context [Rlt_dec _ _] => fail
  | context [Req_dec_T _ _] => fail
  | context [Rcase_abs _] => fail
  | _ => idtac
  end.

(** Case analysis on an innermost comparison of the goal. *)
Ltac rcase :=
  match goal with
  | |- context [Rlt_dec ?a ?b] => no_dec a; no_dec b; destruct (Rlt_dec a b)
  | |- context [Rle_dec ?a ?b] => no_dec a; no_dec b; destruct (Rle_dec a b)
  | |- context [Req_dec_T ?a ?b] => no_dec a; no_dec b; destruct (Req_dec_T a b)
  | |- context [Rcase_abs ?a] => no_dec a; destruct (Rcase_abs a)
  end.

Ltac runfold :=
  unfold Rltb, Reqb, Rmin, Rmax, Rabs, Rsign,
    SHOULDER_ELBOW_MIN, SHOULDER_ELBOW_MAX, WRIST_COUPLED_LIMIT,
    ELBOW_FORWARD_MAX in *.

Ltac rsolve := runfold; repeat (rcase; try lra); try lra.

Lemma Rltb_true (a b : R) : a < b -> Rltb a b = true.
Proof. intros H. unfold Rltb. destruct (Rlt_dec a b); [reflexivity|contradiction]. Qed.

Lemma Rltb_false (a b : R) : ~ a < b -> Rltb a b = false.
Proof. intros H. unfold Rltb. destruct (Rlt_dec a b); [contradiction|reflexivity]. Qed.

Lemma Rltb_lt (a b : R) : Rltb a b = true <-> a < b.
Proof.
  unfold Rltb. destruct (Rlt_dec a b); split; intros H;
    [assumption|reflexivity|discriminate H|contradiction].
Qed.

Lemma six_cells {A} (v : list A) :
  length v = 6%nat -> exists a b c d e f, v = [a; b; c; d; e; f].
Proof.
  intros H.
  do 6 (destruct v as [|? v]; [discriminate H|]).
  destruct v; [|discriminate H]. eauto 10.
Qed.

Lemma clamp_Num (x lo hi : R) : clamp (Num x) (Num lo) (Num hi) = Num (clampR x lo hi).
Proof. reflexivity. Qed.

Lemma clampR_within (x lo hi : R) : lo <= hi -> lo <= clampR x lo hi <= hi.
Proof. unfold clampR. intros. rsolve. Qed.

Lemma clampR_id (x lo hi : R) : lo <= x <= hi -> clampR x lo hi = x.
Proof. unfold clampR. intros. rsolve. Qed.

Lemma per_joint_clamp_Num (a b c d e f : R) :
  per_joint_clamp (Num <$> [a; b; c; d; e; f]) =
  Ok (Num <$> [clampR a (-170) 170; clampR b (-15) 135; clampR c 0 140;
               clampR d (-90) 120; clampR e (-95) 95; clampR f (-180) 180]).
Proof. reflexivity. Qed.

(** Stage 2 on six reals whose shoulder and elbow obey their own limits. *)
Lemma couple_shoulder_elbow_Num (a b c d e f : R) :
  -15 <= b <= 135 -> 0 <= c <= 140 ->
  exists c',
    couple_shoulder_elbow (Num <$> [a; b; c; d; e; f]) = Num <$> [a; b; c'; d; e; f] /\
    0 <= c' <= 140 /\
    SHOULDER_ELBOW_MIN <= b + c' <= SHOULDER_ELBOW_MAX /\
    (b + c <= SHOULDER_ELBOW_MAX -> c' = c).
Proof.
  intros Hb Hc.
  unfold couple_shoulder_elbow, cell, jgt; simpl. unfold Rltb.
  destruct (Rlt_dec (b + c) SHOULDER_ELBOW_MIN) as [Hlo|Hlo];
    [unfold SHOULDER_ELBOW_MIN in Hlo; lra|].
  destruct (Rlt_dec SHOULDER_ELBOW_MAX (b + c)) as [Hhi|Hhi]; simpl.
  - exists (clampR (SHOULDER_ELBOW_MAX + - b) 0 140). split; [reflexivity|].
    unfold clampR. rsolve.
  - exists c. split; [reflexivity|]. rsolve.
Qed.

(** Stage 3 never fires on an elbow that obeys its own limit. *)
Lemma cap_elbow_forward_Num (a b c d e f : R) :
  c <= 140 ->
  cap_elbow_forward (Num <$> [a; b; c; d; e; f]) = Num <$> [a; b; c; d; e; f].
Proof.
  intros Hc. unfold cap_elbow_forward, cell, jgt; simpl. unfold Rltb.
  destruct (Rlt_dec ELBOW_FORWARD_MAX c) as [H|H]; [|reflexivity].
  unfold ELBOW_FORWARD_MAX in H. lra.
Qed.

(** Stage 4 on six reals whose wrist joints obey their own limits: the
    reduced values are already inside the limits, so the second clamp
    returns its argument. *)
Lemma couple_wrist_Num (a b c d e f : R) :
  -90 <= d <= 120 -> -95 <= e <= 95 ->
  exists d' e',
    couple_wrist (Num <$> [a; b; c; d; e; f]) = Num <$> [a; b; c; d'; e'; f] /\
    -90 <= d' <= 120 /\ -95 <= e' <= 95 /\
    Rabs d' + Rabs e' <= WRIST_COUPLED_LIMIT /\
    (Rabs d + Rabs e <= WRIST_COUPLED_LIMIT -> d' = d /\ e' = e) /\
    (WRIST_COUPLED_LIMIT < Rabs d + Rabs e ->
       let reduction := (Rabs d + Rabs e - WRIST_COUPLED_LIMIT) / 2 in
       d' = d - Rsign d * reduction /\ e' = e - Rsign e * reduction).
Proof.
  intros Hd He.
  unfold couple_wrist, cell, jgt; simpl. unfold Rltb, Reqb.
  destruct (Rlt_dec WRIST_COUPLED_LIMIT (Rabs d + Rabs e)) as [Hw|Hw]; simpl.
  - destruct (Req_dec_T 2 0) as [H2|_]; [lra|]. simpl.
    eexists _, _. split; [reflexivity|].
    unfold clampR. rsolve.
  - exists d, e. split; [reflexivity|]. rsolve.
Qed.

(** What [enforceJointSafety] computes on six real numbers. *)
Lemma enforceJointSafety_Num (v : list R) :
  length v = 6%nat ->
  exists out : list R,
    enforceJointSafety (Num <$> v) = Ok (Num <$> out) /\
    Forall2 within JOINT_LIMITS_DEG out /\
    coupled out /\
    (Forall2 within JOINT_LIMITS_DEG v -> coupled v -> out = v).
Proof.
  intros Hlen. destruct (six_cells v Hlen) as (a & b & c & d & e & f & ->).
  unfold enforceJointSafety. rewrite per_joint_clamp_Num. cbn [obind].
  pose proof (clampR_within a (-170) 170 ltac:(lra)) as Ha.
  pose proof (clampR_within b (-15) 135 ltac:(lra)) as Hb.
  pose proof (clampR_within c 0 140 ltac:(lra)) as Hc.
  pose proof (clampR_within d (-90) 120 ltac:(lra)) as Hd.
  pose proof (clampR_within e (-95) 95 ltac:(lra)) as He.
  pose proof (clampR_within f (-180) 180 ltac:(lra)) as Hf.
  destruct (couple_shoulder_elbow_Num (clampR a (-170) 170) _ _
              (clampR d (-90) 120) (clampR e (-95) 95) (clampR f (-180) 180) Hb Hc)
    as (c' & -> & Hc' & Hse & Hcid).
  rewrite cap_elbow_forward_Num by lra.
  destruct (couple_wrist_Num (clampR a (-170) 170) (clampR b (-15) 135) c'
              _ _ (clampR f (-180) 180) Hd He)
    as (d' & e' & -> & Hd' & He' & Hw & Hwid & _).
  eexists. split; [reflexivity|]. split; [|split].
  - unfold JOINT_LIMITS_DEG.
    repeat (constructor 2; [unfold within; simpl; lra|]). constructor 1.
  - simpl. unfold ELBOW_FORWARD_MAX. repeat split; lra.
  - intros Hin Hco.
    repeat match goal with
           | H : Forall2 _ _ _ |- _ => inversion H; clear H; subst
           end.
    unfold within in *; simpl in *.
    destruct Hco as (Hs1 & Hs2 & Hs3).
    rewrite (clampR_id a), (clampR_id b), (clampR_id c), (clampR_id d),
      (clampR_id e), (clampR_id f) in * by lra.
    destruct (Hwid Hs3) as [-> ->]. rewrite Hcid by lra. reflexivity.
Qed.

Lemma couple_wrist_unclamped_Num (a b c d e f : R) :
  -90 <= d <= 120 -> -95 <= e <= 95 ->
  couple_wrist (Num <$> [a; b; c; d; e; f]) =
  couple_wrist_unclamped (Num <$> [a; b; c; d; e; f]).
Proof.
  intros Hd He.
  unfold couple_wrist, couple_wrist_unclamped, cell, jgt; simpl. unfold Rltb, Reqb.
  destruct (Rlt_dec WRIST_COUPLED_LIMIT (Rabs d + Rabs e)) as [Hw|Hw]; simpl;
    [|reflexivity].
  destruct (Req_dec_T 2 0) as [H2|_]; [lra|]. simpl.
  rewrite !clamp_Num, !clampR_id; [reflexivity| |]; rsolve.
Qed.

(** C1.  For every vector of six real numbers (degrees), the enforcer
    returns a vector of six numbers each of which lies between the
    minimum and the maximum of its joint in [JOINT_LIMITS_DEG]. *)
Theorem enforceJointSafety_within_limits (v : list R) :
  length v = 6%nat ->
  exists out : list R,
    enforceJointSafety (Num <$> v) = Ok (Num <$> out) /\
    Forall2 within JOINT_LIMITS_DEG out.
Proof.
  intros Hlen.
  destruct (enforceJointSafety_Num v Hlen) as (out & Hrun & Hin & _).
  exists out. split; assumption.
Qed.

Lemma enforceJointSafety_within_limits_witness :
  length [200; -30; 200; 130; -100; 0] = 6%nat /\
  exists out : list R,
    enforceJointSafety (Num <$> [200; -30; 200; 130; -100; 0]) = Ok (Num <$> out) /\
    Forall2 within JOINT_LIMITS_DEG out.
Proof.
  split; [reflexivity|].
  apply (enforceJointSafety_within_limits [200; -30; 200; 130; -100; 0]).
  reflexivity.
Defined.

(** C2.  The enforcer is idempotent on vectors of six real numbers:
    applied to its own output it returns that output unchanged. *)
Theorem enforceJointSafety_idempotent (v : list R) :
  length v = 6%nat ->
  exists out : list jsval,
    enforceJointSafety (Num <$> v) = Ok out /\
    enforceJointSafety out = Ok out.
Proof.
  intros Hlen.
  destruct (enforceJointSafety_Num v Hlen) as (out & Hrun & Hin & Hco & _).
  exists (Num <$> out). split; [assumption|].
  assert (Hlen' : length out = 6%nat).
  { apply Forall2_length in Hin. rewrite <- Hin. reflexivity. }
  destruct (enforceJointSafety_Num out Hlen') as (out' & Hrun' & _ & _ & Hid).
  rewrite Hrun', (Hid Hin Hco). reflexivity.
Qed.

Lemma enforceJointSafety_idempotent_witness :
  length [0; -30; 200; 120; 95; 0] = 6%nat /\
  exists out : list jsval,
    enforceJointSafety (Num <$> [0; -30; 200; 120; 95; 0]) = Ok out /\
    enforceJointSafety out = Ok out.
Proof.
  split; [reflexivity|].
  apply (enforceJointSafety_idempotent [0; -30; 200; 120; 95; 0]).
  reflexivity.
Defined.

(** C10.  On every vector of six real numbers the output of the enforcer
    obeys the three coupling rules exactly: shoulder + elbow lies in
    [-110, 160], the elbow does not exceed 145, and |wrist roll| +
    |wrist pitch| does not exceed 190.  After the per-joint clamp the
    forward cap of the elbow is never applied, and the clamp that follows
    the wrist reduction returns its argument. *)
Theorem enforceJointSafety_coupling_exact (v : list R) :
  length v = 6%nat ->
  exists (safe : list jsval) (out : list R),
    per_joint_clamp (Num <$> v) = Ok safe /\
    enforceJointSafety (Num <$> v) = Ok (Num <$> out) /\
    coupled out /\
    (cell (couple_shoulder_elbow safe) 2 >? ELBOW_FORWARD_MAX)%js = false /\
    cap_elbow_forward (couple_shoulder_elbow safe) = couple_shoulder_elbow safe /\
    couple_wrist (cap_elbow_forward (couple_shoulder_elbow safe)) =
      couple_wrist_unclamped (cap_elbow_forward (couple_shoulder_elbow safe)).
Proof.
  intros Hlen.
  destruct (enforceJointSafety_Num v Hlen) as (out & Hrun & _ & Hco & _).
  destruct (six_cells v Hlen) as (a & b & c & d & e & f & ->).
  eexists _, out. split; [apply per_joint_clamp_Num|].
  split; [assumption|]. split; [assumption|].
  pose proof (clampR_within b (-15) 135 ltac:(lra)) as Hb.
  pose proof (clampR_within c 0 140 ltac:(lra)) as Hc.
  pose proof (clampR_within d (-90) 120 ltac:(lra)) as Hd.
  pose proof (clampR_within e (-95) 95 ltac:(lra)) as He.
  destruct (couple_shoulder_elbow_Num (clampR a (-170) 170) _ _
              (clampR d (-90) 120) (clampR e (-95) 95) (clampR f (-180) 180) Hb Hc)
    as (c' & -> & Hc' & _).
  rewrite cap_elbow_forward_Num by lra.
  split; [unfold jgt, cell, ELBOW_FORWARD_MAX; simpl; apply Rltb_false; lra|].
  split; [reflexivity|].
  apply couple_wrist_unclamped_Num; assumption.
Qed.

Lemma enforceJointSafety_coupling_exact_witness :
  length [0; 135; 140; 120; -95; 0] = 6%nat /\
  exists (safe : list jsval) (out : list R),
    per_joint_clamp (Num <$> [0; 135; 140; 120; -95; 0]) = Ok safe /\
    enforceJointSafety (Num <$> [0; 135; 140; 120; -95; 0]) = Ok (Num <$> out) /\
    coupled out /\
    (cell (couple_shoulder_elbow safe) 2 >? ELBOW_FORWARD_MAX)%js = false /\
    cap_elbow_forward (couple_shoulder_elbow safe) = couple_shoulder_elbow safe /\
    couple_wrist (cap_elbow_forward (couple_shoulder_elbow safe)) =
      couple_wrist_unclamped (cap_elbow_forward (couple_shoulder_elbow safe)).
Proof.
  split; [reflexivity|].
  apply (enforceJointSafety_coupling_exact [0; 135; 140; 120; -95; 0]).
  reflexivity.
Defined.

(** ** Cartesian path planner: line sampling *)

Lemma jdiv_Num (a b : R) : b <> 0 -> (Num a / Num b)%js = Num (a / b).
Proof.
  intros Hb. unfold jdiv, Reqb. destruct (Req_dec_T b 0); [contradiction|reflexivity].
Qed.

Lemma sample_point (sx sy sz gx gy gz : R) (N : Z) (i : nat) :
  (1 <= N)%Z -> (i <= Z.to_nat N)%nat ->
  sampleLinePath (real_point sx sy sz) (real_point gx gy gz) (Some N) !! i =
  Some (lerp_point sx sy sz gx gy gz (INR i / IZR N)).
Proof.
  intros HN Hi. unfold sampleLinePath.
  change (default 15%Z (Some N)) with N.
  rewrite list_lookup_fmap, lookup_seq_lt by lia. cbn [fmap option_fmap option_map].
  assert (HN0 : IZR N <> 0) by (apply not_0_IZR; lia).
  cbn [real_point Point.x Point.y Point.z Nat.add]. rewrite jdiv_Num by assumption. simpl.
  unfold lerp_point, real_point. do 2 f_equal; f_equal; lra.
Qed.

(** *** The doubles of the sampled points *)

Lemma digits2_pos_bounds (p : positive) :
  (2 ^ (Zpos (digits2_pos p) - 1) <= Zpos p < 2 ^ Zpos (digits2_pos p))%Z.
Proof.
  induction p as [p IH|p IH|]; cbn [digits2_pos].
  - rewrite Pos2Z.inj_succ.
    replace (Z.succ (Zpos (digits2_pos p)) - 1)%Z
      with (Z.succ (Zpos (digits2_pos p) - 1))%Z by lia.
    rewrite !Z.pow_succ_r by lia. lia.
  - rewrite Pos2Z.inj_succ.
    replace (Z.succ (Zpos (digits2_pos p)) - 1)%Z
      with (Z.succ (Zpos (digits2_pos p) - 1))%Z by lia.
    rewrite !Z.pow_succ_r by lia. lia.
  - simpl. lia.
Qed.

Lemma digits2_pos_iter_xO (p : positive) (k : positive) :
  Zpos (digits2_pos (Pos.iter xO p k)) = (Zpos (digits2_pos p) + Zpos k)%Z.
Proof.
  induction k as [|k IH] using Pos.peano_ind.
  - simpl. lia.
  - rewrite Pos.iter_succ. cbn [digits2_pos]. lia.
Qed.

(** Rounding leaves a mantissa in canonical form as it is. *)
Lemma binary_round_aux_canonical (sx : bool) (m : positive) (e : Z) :
  SpecFloat.bounded prec emax m e = true ->
  binary_round_aux prec emax sx (Zpos m) e loc_Exact = S754_finite sx m e.
Proof.
  unfold SpecFloat.bounded, canonical_mantissa. intros H.
  apply andb_prop in H as [Hc He]. apply Z.eqb_eq in Hc.
  unfold binary_round_aux, shr_fexp. cbn [Zdigits2 shr_record_of_loc].
  rewrite Hc, Z.sub_diag.
  cbn [shr shr_m loc_of_shr_record round_nearest_even Zdigits2 shr_record_of_loc].
  rewrite Hc, Z.sub_diag. cbn [shr shr_m]. rewrite He. reflexivity.
Qed.

(** A count from 1 to 2^53 - 1 is held by a positive finite double. *)
Lemma of_Z_finite (N : Z) :
  (1 <= N < 2 ^ 53)%Z ->
  exists m e, Prim2SF (Binary64.of_Z N) = S754_finite false m e.
Proof.
  intros HN. unfold Binary64.of_Z. rewrite FloatAxioms.of_uint63_spec.
  rewrite Uint63.of_Z_spec.
  assert (HwB : (2 ^ 53 < Uint63.wB)%Z) by reflexivity.
  rewrite Z.mod_small by lia.
  destruct N as [|p|p]; try lia.
  cbn [binary_normalize]. unfold binary_round.
  pose proof (digits2_pos_bounds p) as Hd.
  assert (Hd53 : (Zpos (digits2_pos p) <= 53)%Z).
  { destruct (Z_le_gt_dec (Zpos (digits2_pos p)) 53) as [|Hgt]; [assumption|].
    assert (2 ^ 53 <= 2 ^ (Zpos (digits2_pos p) - 1))%Z
      by (apply Z.pow_le_mono_r; lia).
    lia. }
  unfold shl_align, fexp, SpecFloat.emin.
  change prec with 53%Z. change emax with 1024%Z.
  rewrite Z.add_0_r.
  rewrite Z.max_l by lia.
  rewrite Z.sub_0_r.
  destruct (Zpos (digits2_pos p) - 53)%Z as [|k|k] eqn:Hk; try lia.
  - eexists _, _. apply binary_round_aux_canonical.
    unfold SpecFloat.bounded, canonical_mantissa, fexp, SpecFloat.emin.
    change prec with 53%Z. change emax with 1024%Z.
    apply andb_true_intro. split; [apply Z.eqb_eq|apply Z.leb_le]; lia.
  - eexists _, _. apply binary_round_aux_canonical.
    unfold SpecFloat.bounded, canonical_mantissa, fexp, SpecFloat.emin.
    change prec with 53%Z. change emax with 1024%Z.
    rewrite digits2_pos_iter_xO.
    apply andb_true_intro. split; [apply Z.eqb_eq|apply Z.leb_le]; lia.
Qed.

(** [a / a] is 1 for a finite double that is not zero. *)
Lemma div_self (a : float) (s : bool) (m : positive) (e : Z) :
  Prim2SF a = S754_finite s m e -> (a / a)%float = 1%float.
Proof.
  intros Ha. apply Prim2SF_inj. rewrite FloatAxioms.div_spec, Ha.
  unfold SF64div, SFdiv, SFdiv_core_binary.
  rewrite !Z.sub_diag.
  change (Z.min (fexp prec emax 0) 0) with (-53)%Z.
  change (0 - -53)%Z with 53%Z. cbv iota.
  rewrite Z.shiftl_mul_pow2 by lia.
  pose proof (Z.div_eucl_eq (Zpos m * 2 ^ 53) (Zpos m) ltac:(lia)) as Heq.
  pose proof (Z.mod_pos_bound (Zpos m * 2 ^ 53) (Zpos m) ltac:(lia)) as Hmod.
  unfold Z.modulo in Hmod.
  destruct (Z.div_eucl (Zpos m * 2 ^ 53) (Zpos m)) as [q r].
  assert (Hq : q = (2 ^ 53)%Z) by nia.
  assert (Hr : r = 0%Z) by nia.
  subst q r.
  assert (Hloc : new_location (Zpos m) 0 = loc_Exact).
  { unfold new_location, new_location_even, new_location_odd.
    destruct (Z.even (Zpos m)); reflexivity. }
  rewrite Hloc. destruct s; reflexivity.
Qed.

Lemma zero_div (a : float) (m : positive) (e : Z) :
  Prim2SF a = S754_finite false m e -> (0 / a)%float = 0%float.
Proof.
  intros Ha. apply Prim2SF_inj. rewrite FloatAxioms.div_spec, Ha. reflexivity.
Qed.

(** [a * 1] is [a] for every double. *)
Lemma mul_one (a : float) : (a * 1)%float = a.
Proof.
  apply Prim2SF_inj. rewrite FloatAxioms.mul_spec.
  pose proof (Prim2SF_valid a) as Hv.
  change (Prim2SF 1) with (S754_finite false 4503599627370496 (-52)).
  destruct (Prim2SF a) as [s|s| |s m e];
    try (destruct s; reflexivity); try reflexivity.
  cbn [valid_binary] in Hv. unfold SF64mul, SFmul.
  pose proof Hv as Hb. unfold SpecFloat.bounded, canonical_mantissa in Hb.
  apply andb_prop in Hb as [Hc He]. apply Z.eqb_eq in Hc.
  rewrite Bool.xorb_false_r.
  rewrite Pos.mul_comm.
  change (4503599627370496 * m)%positive with (Pos.iter xO m 52).
  unfold binary_round_aux at 1. unfold shr_fexp at 1.
  cbn [Zdigits2]. rewrite digits2_pos_iter_xO.
  replace (Zpos (digits2_pos m) + 52 + (e + -52))%Z
    with (Zpos (digits2_pos m) + e)%Z by lia.
  rewrite Hc.
  replace (e - (e + -52))%Z with 52%Z by lia.
  cbn [shr_record_of_loc shr].
  change (SpecFloat.iter_pos shr_1 52
            {| shr_m := Zpos (Pos.iter xO m 52); shr_r := false; shr_s := false |})
    with {| shr_m := Zpos m; shr_r := false; shr_s := false |}.
  cbn [shr_m loc_of_shr_record round_nearest_even].
  replace (e + -52 + 52)%Z with e by lia.
  unfold shr_fexp. cbn [Zdigits2 shr_record_of_loc]. rewrite Hc, Z.sub_diag.
  cbn [shr shr_m]. rewrite He. reflexivity.
Qed.

Lemma SFeqb_refl (s : bool) (m : positive) (e : Z) :
  SFeqb (S754_finite s m e) (S754_finite s m e) = true.
Proof.
  unfold SFeqb, SFcompare.
  rewrite Z.compare_refl, Pos.compare_cont_refl. destruct s; reflexivity.
Qed.

Lemma is_finite_cases (a : float) :
  PrimFloat.is_finite a = true ->
  (exists s, Prim2SF a = S754_zero s) \/
  (exists s m e, Prim2SF a = S754_finite s m e).
Proof.
  unfold PrimFloat.is_finite, PrimFloat.is_nan, PrimFloat.is_infinity.
  rewrite !FloatAxioms.eqb_spec, FloatAxioms.abs_spec.
  destruct (Prim2SF a) as [s|s| |s m e]; intros H.
  - left. eexists. reflexivity.
  - destruct s; discriminate H.
  - discriminate H.
  - right. eexists _, _, _. reflexivity.
Qed.

(** At [t = 0] the formula gives a number equal to [a], whatever the
    sign of the zero that [d * 0] is. *)
Lemma lerp_at_zero (a d : float) :
  PrimFloat.is_finite a = true -> PrimFloat.is_finite d = true ->
  (a + d * 0 =? a)%float = true.
Proof.
  intros Ha Hd.
  rewrite FloatAxioms.eqb_spec, FloatAxioms.add_spec, FloatAxioms.mul_spec.
  change (Prim2SF 0) with (S754_zero false).
  destruct (is_finite_cases a Ha) as [[s ->]|(s & m & e & ->)],
           (is_finite_cases d Hd) as [[s' ->]|(s' & m' & e' & ->)];
    cbn [SF64mul SFmul SF64add SFadd].
  - destruct s, s'; reflexivity.
  - destruct s, s'; reflexivity.
  - apply SFeqb_refl.
  - apply SFeqb_refl.
Qed.

Lemma sample_lookup (start goal : Binary64.point) (N : Z) (i : nat) :
  (0 <= N)%Z -> (i <= Z.to_nat N)%nat ->
  Binary64.sampleLinePath start goal (Some N) !! i =
  Some (Binary64.sample start goal
          (Binary64.of_Z (Z.of_nat i) / Binary64.of_Z N)%float).
Proof.
  intros HN Hi. unfold Binary64.sampleLinePath.
  change (default 15%Z (Some N)) with N.
  rewrite list_lookup_fmap, lookup_seq_lt by lia. reflexivity.
Qed.

(** C4, as the code has it.  For every pair of points with double
    coordinates and every integer sample count N with 1 <= N < 2^53,
    [sampleLinePath] yields exactly N+1 points, the i-th of which is
    [start + (goal - start) * t] at [t = i / N], computed in double
    arithmetic; the parameter is exactly 0 at the first point and exactly
    1 at the last.  The first point is equal to the start, as numbers,
    when the coordinates of the start and the differences [goal - start]
    are finite.  The last point is [start + (goal - start)] as double
    arithmetic rounds it (which need not be the goal). *)
Theorem sampleLinePath_first_and_last (start goal : Binary64.point) (N : Z) :
  (1 <= N < 2 ^ 53)%Z ->
  let path := Binary64.sampleLinePath start goal (Some N) in
  length path = Z.to_nat (N + 1) /\
  (forall i : nat, (i <= Z.to_nat N)%nat ->
     path !! i =
     Some (Binary64.sample start goal
             (Binary64.of_Z (Z.of_nat i) / Binary64.of_Z N)%float)) /\
  (Binary64.of_Z 0 / Binary64.of_Z N)%float = 0%float /\
  (Binary64.of_Z N / Binary64.of_Z N)%float = 1%float /\
  path !! 0%nat = Some (Binary64.sample start goal 0%float) /\
  (Binary64.finite_segment start goal ->
   Binary64.same_point (Binary64.sample start goal 0%float) start) /\
  path !! Z.to_nat N =
    Some {| Binary64.x :=
              (Binary64.x start + (Binary64.x goal - Binary64.x start))%float;
            Binary64.y :=
              (Binary64.y start + (Binary64.y goal - Binary64.y start))%float;
            Binary64.z :=
              (Binary64.z start + (Binary64.z goal - Binary64.z start))%float |}.
Proof.
  intros HN path. subst path.
  destruct (of_Z_finite N HN) as (m & e & Hfin).
  split; [|split; [|split; [|split; [|split; [|split]]]]].
  - unfold Binary64.sampleLinePath.
    change (default 15%Z (Some N)) with N.
    rewrite length_map, length_seq. reflexivity.
  - intros i Hi. apply sample_lookup; [lia|assumption].
  - apply (zero_div _ m e Hfin).
  - apply (div_self _ false m e Hfin).
  - rewrite sample_lookup by lia.
    change (Binary64.of_Z (Z.of_nat 0)) with 0%float.
    rewrite (zero_div _ m e Hfin). reflexivity.
  - intros (Hx & Hdx & Hy & Hdy & Hz & Hdz).
    unfold Binary64.same_point, Binary64.sample;
      cbn [Binary64.x Binary64.y Binary64.z].
    repeat split; apply lerp_at_zero; assumption.
  - rewrite sample_lookup by lia.
    rewrite Z2Nat.id by lia.
    rewrite (div_self _ false m e Hfin).
    unfold Binary64.sample. rewrite !mul_one. reflexivity.
Qed.

Set Warnings "-inexact-float".

Lemma sampleLinePath_first_and_last_witness :
  let start := {| Binary64.x := 0.1; Binary64.y := -0.2; Binary64.z := 0.3 |} in
  let goal := {| Binary64.x := 0.18; Binary64.y := 0; Binary64.z := 0.3 |} in
  let path := Binary64.sampleLinePath start goal (Some 15%Z) in
  (1 <= 15 < 2 ^ 53)%Z /\
  Binary64.finite_segment start goal /\
  length path = 16%nat /\
  (Binary64.of_Z 0 / Binary64.of_Z 15)%float = 0%float /\
  (Binary64.of_Z 15 / Binary64.of_Z 15)%float = 1%float /\
  path !! 0%nat = Some (Binary64.sample start goal 0%float) /\
  Binary64.same_point (Binary64.sample start goal 0%float) start /\
  path !! 15%nat =
    Some {| Binary64.x := (0.1 + (0.18 - 0.1))%float;
            Binary64.y := (-0.2 + (0 - -0.2))%float;
            Binary64.z := (0.3 + (0.3 - 0.3))%float |}.
Proof.
  intros start goal path.
  assert (HN : (1 <= 15 < 2 ^ 53)%Z) by lia.
  assert (Hfin : Binary64.finite_segment start goal) by (repeat split; reflexivity).
  destruct (sampleLinePath_first_and_last start goal 15 HN)
    as (Hlen & _ & Ht0 & Ht1 & Hfirst & Hsame & Hlast).
  split; [exact HN|]. split; [exact Hfin|].
  split; [exact Hlen|]. split; [exact Ht0|]. split; [exact Ht1|].
  split; [exact Hfirst|].
  split; [exact (Hsame Hfin)|exact Hlast].
Defined.

(** C4, as the specification states it, fails.  From x = -0.4 to
    x = -0.15 with the default 15 samples, the last point has
    x = -0.15000000000000002: [-0.15 - -0.4] rounds to 0.25000000000000006
    and adding it to -0.4 does not give -0.15 back. *)
Lemma sampleLinePath_last_point_counterexample :
  let start := {| Binary64.x := -0.4; Binary64.y := 0; Binary64.z := 0.3 |} in
  let goal := {| Binary64.x := -0.15; Binary64.y := 0; Binary64.z := 0.3 |} in
  let path := Binary64.sampleLinePath start goal (Some 15%Z) in
  (1 <= 15)%Z /\
  length path = 16%nat /\
  path !! 15%nat =
    Some {| Binary64.x := -0.15000000000000002;
            Binary64.y := 0; Binary64.z := 0.3 |} /\
  (-0.15000000000000002 =? -0.15)%float = false /\
  path !! 15%nat <> Some goal.
Proof.
  intros start goal path.
  split; [lia|]. split; [reflexivity|].
  assert (Hlast : path !! 15%nat =
    Some {| Binary64.x := -0.15000000000000002;
            Binary64.y := 0; Binary64.z := 0.3 |})
    by (vm_compute; reflexivity).
  split; [exact Hlast|]. split; [reflexivity|].
  rewrite Hlast. intros H.
  pose proof (f_equal (fun p => match p with
                               | Some q => (Binary64.x q =? -0.15)%float
                               | None => false
                               end) H) as Hx.
  vm_compute in Hx. discriminate Hx.
Qed.

(** ** Collision validator *)

Lemma fold_also_events (l : list (list event * bool)) (acc : list event * bool) :
  (fold_left also l acc).1 = acc.1 ++ concat (map fst l).
Proof.
  revert acc. induction l as [|c l IH]; intros acc; simpl.
  - rewrite app_nil_r. reflexivity.
  - rewrite IH. simpl. rewrite <- app_assoc. reflexivity.
Qed.

Lemma fold_also_risk (l : list (list event * bool)) (acc : list event * bool) :
  (fold_left also l acc).2 = acc.2 || existsb snd l.
Proof.
  revert acc. induction l as [|c l IH]; intros acc; simpl.
  - rewrite orb_false_r. reflexivity.
  - rewrite IH. simpl. rewrite <- orb_assoc. reflexivity.
Qed.

Lemma geometry_as_fold (a : angles) :
  geometryCollisionCheck a =
  fold_left also
    (map (check_point (LINK_LENGTHS_M.baseHeight + BASE_CLEARANCE_M))
       (computeForwardPositions a)) ([], false).
Proof.
  unfold geometryCollisionCheck.
  generalize (computeForwardPositions a), (([], false) : list event * bool).
  induction l as [|p l IH]; intros acc; simpl; [reflexivity|apply IH].
Qed.

Lemma flag_events (c : bool) (msg : message) (color : string) (ev : event) :
  In ev (flag c msg color).1 <-> c = true /\ ev = addLog msg color.
Proof.
  unfold flag. destruct c; simpl; split.
  - intros [<-|[]]. split; reflexivity.
  - intros [_ ->]. left; reflexivity.
  - intros [].
  - intros [H _]. discriminate H.
Qed.

Lemma flag_risk (c : bool) (msg : message) (color : string) :
  (flag c msg color).2 = c.
Proof. destruct c; reflexivity. Qed.

(** The events of the geometric check: one per test that fires. *)
Lemma geometry_events (a : angles) (ev : event) :
  In ev (geometryCollisionCheck a).1 <->
  exists point, In point (computeForwardPositions a) /\
    ((KeyPoint.z point <? - 0.005)%js = true /\
       ev = addLog (ground_msg point) "text-amber-500" \/
     ((KeyPoint.z point <? LINK_LENGTHS_M.baseHeight + BASE_CLEARANCE_M)%js &&
      (KeyPoint.radial point <? BASE_RADIUS_M)%js = true) /\
       ev = addLog pedestal_msg "text-amber-500").
Proof.
  rewrite geometry_as_fold, fold_also_events. cbn [fst app].
  rewrite in_concat. setoid_rewrite in_map_iff. split.
  - intros (evs & (c & <- & (point & <- & Hp)%in_map_iff) & Hev).
    exists point. split; [assumption|].
    unfold check_point, also in Hev; simpl in Hev.
    apply in_app_or in Hev as [H|H]; apply flag_events in H; tauto.
  - intros (point & Hp & H).
    eexists. split.
    + eexists. split; [reflexivity|]. apply in_map_iff. eauto.
    + unfold check_point, also; simpl. apply in_or_app.
      destruct H as [H|H]; [left|right]; apply flag_events; assumption.
Qed.

Lemma imap_Forall {A B} (P : B -> Prop) (f : nat -> A -> B) (l : list A) :
  (forall i x, P (f i x)) -> Forall P (imap f l).
Proof.
  revert f. induction l as [|x l IH]; intros f Hf; simpl; constructor.
  - apply Hf.
  - apply IH. intros i y. apply Hf.
Qed.

(** The events of the per-joint tests all carry a limit message. *)
Lemma limit_events (a : angles) (ev : event) :
  In ev (concat (map fst (imap check_entry (Object_entries a)))) ->
  exists l, ev = addLog (limit_msg l) "text-amber-500".
Proof.
  intros (evs & (c & <- & Hc)%in_map_iff & Hev)%in_concat.
  pose proof (imap_Forall
    (fun c => forall ev, In ev c.1 -> exists l, ev = addLog (limit_msg l) "text-amber-500")
    check_entry (Object_entries a)) as HF.
  rewrite Forall_forall in HF. eapply HF; [|apply list_elem_of_In; exact Hc|exact Hev].
  intros i x ev' Hin. unfold check_entry in Hin.
  destruct (JOINT_LIMITS_DEG !! i) as [l|]; [|destruct Hin].
  apply flag_events in Hin as [_ ->]. eauto.
Qed.

(** The events of [quickCollisionCheck], test by test. *)
Lemma quickCollisionCheck_events (a : angles) (ev : event) :
  In ev (quickCollisionCheck a).1 <->
  In ev (concat (map fst (imap check_entry (Object_entries a)))) \/
  ((joint2 a + joint3 a <? SHOULDER_ELBOW_MIN)%js = true /\
     ev = addLog sum_below_msg "text-amber-500") \/
  ((joint2 a + joint3 a >? SHOULDER_ELBOW_MAX)%js = true /\
     ev = addLog sum_above_msg "text-amber-500") \/
  ((joint3 a >? ELBOW_FORWARD_MAX)%js = true /\
     ev = addLog elbow_msg "text-amber-500") \/
  ((Math_abs (joint4 a) + Math_abs (joint5 a) >? WRIST_COUPLED_LIMIT)%js = true /\
     ev = addLog wrist_msg "text-amber-500") \/
  In ev (geometryCollisionCheck a).1.
Proof.
  unfold quickCollisionCheck. cbn [also fst]. rewrite fold_also_events. cbn [fst app].
  rewrite !in_app_iff, !flag_events. tauto.
Qed.

Lemma quickCollisionCheck_risk (a : angles) :
  (quickCollisionCheck a).2 =
  existsb snd (imap check_entry (Object_entries a)) ||
  ((joint2 a + joint3 a <? SHOULDER_ELBOW_MIN)%js ||
   ((joint2 a + joint3 a >? SHOULDER_ELBOW_MAX)%js ||
    ((joint3 a >? ELBOW_FORWARD_MAX)%js ||
     ((Math_abs (joint4 a) + Math_abs (joint5 a) >? WRIST_COUPLED_LIMIT)%js ||
      (geometryCollisionCheck a).2)))).
Proof.
  unfold quickCollisionCheck. cbn [also snd]. rewrite fold_also_risk, !flag_risk.
  reflexivity.
Qed.

(** C5.  For six real joint angles the validator reports a violation of
    the shoulder + elbow sum if and only if joint2 + joint3 lies outside
    [-110, 160]: the message of the lower bound exactly when the sum is
    below -110, the message of the upper bound exactly when it is above
    160; and in both cases the verdict is a collision risk. *)
Theorem quickCollisionCheck_sum_violation (j1 j2 j3 j4 j5 j6 : R) :
  let a := real_angles j1 j2 j3 j4 j5 j6 in
  (reports a sum_below_msg \/ reports a sum_above_msg <->
   j2 + j3 < SHOULDER_ELBOW_MIN \/ SHOULDER_ELBOW_MAX < j2 + j3) /\
  (reports a sum_below_msg <-> j2 + j3 < SHOULDER_ELBOW_MIN) /\
  (reports a sum_above_msg <-> SHOULDER_ELBOW_MAX < j2 + j3) /\
  (j2 + j3 < SHOULDER_ELBOW_MIN \/ SHOULDER_ELBOW_MAX < j2 + j3 ->
   (quickCollisionCheck a).2 = true).
Proof.
  intros a.
  assert (Hlo : reports a sum_below_msg <-> j2 + j3 < SHOULDER_ELBOW_MIN).
  { unfold reports. rewrite quickCollisionCheck_events. split.
    - intros [H|[[H _]|[[_ H]|[[_ H]|[[_ H]|H]]]]]; try discriminate H.
      + apply limit_events in H as [l H]. discriminate H.
      + apply Rltb_lt. exact H.
      + apply geometry_events in H as (p & _ & [[_ H]|[_ H]]); discriminate H.
    - intros H. right; left. split; [|reflexivity]. apply Rltb_lt. exact H. }
  assert (Hhi : reports a sum_above_msg <-> SHOULDER_ELBOW_MAX < j2 + j3).
  { unfold reports. rewrite quickCollisionCheck_events. split.
    - intros [H|[[_ H]|[[H _]|[[_ H]|[[_ H]|H]]]]]; try discriminate H.
      + apply limit_events in H as [l H]. discriminate H.
      + apply Rltb_lt. exact H.
      + apply geometry_events in H as (p & _ & [[_ H]|[_ H]]); discriminate H.
    - intros H. right; right; left. split; [|reflexivity]. apply Rltb_lt. exact H. }
  split; [rewrite Hlo, Hhi; reflexivity|]. split; [exact Hlo|]. split; [exact Hhi|].
  intros H. rewrite quickCollisionCheck_risk.
  assert (Hb : (joint2 a + joint3 a <? SHOULDER_ELBOW_MIN)%js ||
               (joint2 a + joint3 a >? SHOULDER_ELBOW_MAX)%js = true).
  { apply orb_true_iff. destruct H as [H|H]; [left|right]; apply Rltb_lt; exact H. }
  apply orb_true_iff in Hb as [Hb|Hb]; rewrite Hb;
    rewrite ?orb_true_r, ?orb_true_l; reflexivity.
Qed.

Lemma quickCollisionCheck_sum_violation_witness :
  reports (real_angles 0 (-30) 200 0 0 0) sum_above_msg /\
  (quickCollisionCheck (real_angles 0 (-30) 200 0 0 0)).2 = true.
Proof.
  destruct (quickCollisionCheck_sum_violation 0 (-30) 200 0 0 0)
    as (_ & _ & Hhi & Hrisk).
  assert (H : SHOULDER_ELBOW_MAX < -30 + 200) by (unfold SHOULDER_ELBOW_MAX; lra).
  split; [apply Hhi; exact H|apply Hrisk; right; exact H].
Defined.

(** *** Forward kinematics on real angles *)

Lemma planar_radius (r yaw : R) :
  Math_sqrt (Num (r * cos yaw * (r * cos yaw) + r * sin yaw * (r * sin yaw))) =
  Num (Rabs r).
Proof.
  assert (H : r * cos yaw * (r * cos yaw) + r * sin yaw * (r * sin yaw) = Rsqr r).
  { unfold Rsqr. pose proof (sin2_cos2 yaw) as Hsc. unfold Rsqr in Hsc. nra. }
  rewrite H. unfold Math_sqrt.
  rewrite Rltb_false by (pose proof (Rle_0_sqr r); lra).
  rewrite sqrt_Rsqr_abs. reflexivity.
Qed.

(** The three key points of a pose with real angles: the arm is a planar
    chain of three segments turned about the vertical axis. *)
Lemma computeForwardPositions_real (j1 j2 j3 j4 j5 j6 : R) :
  let yaw := j1 * DEG2RAD in
  let p1 := j2 * DEG2RAD in
  let p2 := j2 * DEG2RAD + j3 * DEG2RAD in
  let p3 := j2 * DEG2RAD + j3 * DEG2RAD + j4 * DEG2RAD in
  let l1 := LINK_LENGTHS_M.shoulder + LINK_LENGTHS_M.upperArm in
  let l2 := LINK_LENGTHS_M.forearm in
  let l3 := LINK_LENGTHS_M.wrist + LINK_LENGTHS_M.flange in
  let r1 := 0 + sin p1 * l1 in
  let r2 := r1 + sin p2 * l2 in
  let r3 := r2 + sin p3 * l3 in
  let h1 := LINK_LENGTHS_M.baseHeight + cos p1 * l1 in
  let h2 := h1 + cos p2 * l2 in
  let h3 := h2 + cos p3 * l3 in
  computeForwardPositions (real_angles j1 j2 j3 j4 j5 j6) =
  [ {| KeyPoint.label := "肘部"; KeyPoint.x := Num (r1 * cos yaw);
       KeyPoint.y := Num (r1 * sin yaw); KeyPoint.z := Num h1;
       KeyPoint.radial := Num (Rabs r1) |};
    {| KeyPoint.label := "腕部"; KeyPoint.x := Num (r2 * cos yaw);
       KeyPoint.y := Num (r2 * sin yaw); KeyPoint.z := Num h2;
       KeyPoint.radial := Num (Rabs r2) |};
    {| KeyPoint.label := "末端"; KeyPoint.x := Num (r3 * cos yaw);
       KeyPoint.y := Num (r3 * sin yaw); KeyPoint.z := Num h3;
       KeyPoint.radial := Num (Rabs r3) |} ].
Proof.
  intros. unfold computeForwardPositions, real_angles.
  cbn [joint1 joint2 joint3 joint4 or0 zip zip_with forward_loop
       jmul jadd Math_sin Math_cos].
  rewrite !planar_radius. reflexivity.
Qed.

(** A pose with real angles inside every limit and every coupling rule,
    whose key points are clear, passes the validator without a message. *)
Lemma quickCollisionCheck_pass (j1 j2 j3 j4 j5 j6 : R) :
  Forall2 within JOINT_LIMITS_DEG [j1; j2; j3; j4; j5; j6] ->
  coupled [j1; j2; j3; j4; j5; j6] ->
  Forall clear (chain j2 j3 j4) ->
  quickCollisionCheck (real_angles j1 j2 j3 j4 j5 j6) = ([], false).
Proof.
  intros Hin Hco Hcl.
  repeat match goal with
         | H : Forall2 _ _ _ |- _ => inversion H; clear H; subst
         | H : Forall _ _ |- _ => inversion H; clear H; subst
         end.
  unfold within, clear in *; simpl in *.
  unfold quickCollisionCheck. rewrite geometry_as_fold, computeForwardPositions_real.
  destruct Hco as (Hse & Hel & Hwr).
  cbn [real_angles Object_entries imap check_entry lookup list_lookup
       JOINT_LIMITS_DEG min max fold_left map check_point compose
       joint1 joint2 joint3 joint4 joint5 joint6 fst snd
       KeyPoint.z KeyPoint.radial jlt jgt jadd Math_abs].
  unfold check_point.
  cbn [KeyPoint.z KeyPoint.radial jlt jgt jadd jneg].
  unfold Rltb.
  repeat (rcase; try (exfalso; first [lra | tauto]);
          cbn [andb orb fst snd app]).
  all: reflexivity.
Qed.

Ltac unfold_lengths :=
  unfold LINK_LENGTHS_M.baseHeight, LINK_LENGTHS_M.shoulder,
    LINK_LENGTHS_M.upperArm, LINK_LENGTHS_M.forearm, LINK_LENGTHS_M.wrist,
    LINK_LENGTHS_M.flange, BASE_RADIUS_M, BASE_CLEARANCE_M in *.

(** The chain of a pose whose shoulder, elbow and wrist are at zero:
    the arm points straight up. *)
Lemma chain_upright : chain 0 0 0 = [ (0, 0.1482); (0, 0.1932); (0, 0.2864) ].
Proof.
  unfold chain. replace (0 * DEG2RAD) with 0 by ring.
  replace (0 + 0 + 0) with 0 by ring. replace (0 + 0) with 0 by ring.
  rewrite sin_0, cos_0. unfold_lengths.
  repeat f_equal; lra.
Qed.

Lemma chain_upright_clear : Forall clear (chain 0 0 0).
Proof.
  rewrite chain_upright. unfold clear. unfold_lengths.
  repeat constructor; simpl; lra.
Qed.

(** The chain of the pose shoulder 90, elbow 0, wrist 30: the upper arm and
    the forearm lie level with the shoulder axis, the last segment points
    30 degrees below the horizontal. *)
Lemma chain_reach_down :
  chain 90 0 30 =
  [ (0.1042, 0.044); (0.1492, 0.044); (0.1492 + sqrt 3 / 2 * 0.0932, -0.0026) ].
Proof.
  unfold chain.
  replace (90 * DEG2RAD + 0 * DEG2RAD + 30 * DEG2RAD) with (2 * (PI / 3))
    by (unfold DEG2RAD, Math_PI; field).
  replace (90 * DEG2RAD + 0 * DEG2RAD) with (PI / 2)
    by (unfold DEG2RAD, Math_PI; field).
  replace (90 * DEG2RAD) with (PI / 2) by (unfold DEG2RAD, Math_PI; field).
  rewrite sin_PI2, cos_PI2, sin_2PI3, cos_2PI3. unfold_lengths.
  repeat f_equal; lra.
Qed.

Lemma chain_reach_down_clear : Forall clear (chain 90 0 30).
Proof.
  rewrite chain_reach_down. unfold clear. unfold_lengths.
  pose proof (sqrt_pos 3) as H3.
  repeat constructor; simpl;
    try lra;
    intros [_ H]; revert H; unfold Rabs; rcase; intros; lra.
Qed.

Lemma geometry_risk (a : angles) (point : KeyPoint.t) :
  In point (computeForwardPositions a) ->
  (KeyPoint.z point <? - 0.005)%js = true ->
  (geometryCollisionCheck a).2 = true.
Proof.
  intros Hin Hz. rewrite geometry_as_fold, fold_also_risk. cbn [snd orb].
  apply existsb_exists. eexists. split.
  - apply in_map_iff. eauto.
  - unfold check_point, also. cbn [snd]. rewrite !flag_risk, Hz. reflexivity.
Qed.

(** C6, as the code has it.  For every joint angle object, a key point of
    the forward kinematics whose height is below -0.005 (5 mm under the
    ground plane) makes the validator report a ground-penetration
    violation for it and return a collision risk; and a ground-penetration
    violation is reported only for such a point. *)
Theorem ground_violation_threshold (a : angles) :
  (forall point,
     In point (computeForwardPositions a) ->
     (KeyPoint.z point <? - 0.005)%js = true ->
     reports a (ground_msg point) /\ (quickCollisionCheck a).2 = true) /\
  (forall reported,
     reports a (ground_msg reported) ->
     exists point,
       In point (computeForwardPositions a) /\
       (KeyPoint.z point <? - 0.005)%js = true /\
       ground_msg point = ground_msg reported).
Proof.
  split.
  - intros point Hin Hz. split.
    + unfold reports. apply quickCollisionCheck_events.
      do 5 right. apply geometry_events. exists point. tauto.
    + rewrite quickCollisionCheck_risk, (geometry_risk a point Hin Hz).
      rewrite !orb_true_r. reflexivity.
  - intros q Hq. unfold reports in Hq. apply quickCollisionCheck_events in Hq.
    destruct Hq as [H|[[_ H]|[[_ H]|[[_ H]|[[_ H]|H]]]]]; try discriminate H.
    + apply limit_events in H as [l H]. discriminate H.
    + apply geometry_events in H as (p & Hin & [[Hz H]|[_ H]]); [|discriminate H].
      exists p. split; [assumption|]. split; [assumption|].
      injection H as H. unfold ground_msg. rewrite H. reflexivity.
Qed.

(** A pose folded over (shoulder 90, elbow 90): its end point is 94 mm
    under the ground plane and is reported. *)
Lemma ground_violation_threshold_witness :
  exists point,
    In point (computeForwardPositions (real_angles 0 90 90 0 0 0)) /\
    (KeyPoint.z point <? - 0.005)%js = true /\
    reports (real_angles 0 90 90 0 0 0) (ground_msg point) /\
    (quickCollisionCheck (real_angles 0 90 90 0 0 0)).2 = true.
Proof.
  assert (Hz : forall point,
    nth_error (computeForwardPositions (real_angles 0 90 90 0 0 0)) 2 = Some point ->
    (KeyPoint.z point <? - 0.005)%js = true).
  { intros point. rewrite computeForwardPositions_real. cbn [nth_error].
    intros [= <-]. cbn [KeyPoint.z jlt]. apply Rltb_true.
    replace (90 * DEG2RAD + 90 * DEG2RAD + 0 * DEG2RAD) with PI
      by (unfold DEG2RAD, Math_PI; field).
    replace (90 * DEG2RAD + 90 * DEG2RAD) with PI
      by (unfold DEG2RAD, Math_PI; field).
    replace (90 * DEG2RAD) with (PI / 2) by (unfold DEG2RAD, Math_PI; field).
    rewrite cos_PI2, cos_PI. unfold_lengths. lra. }
  destruct (nth_error (computeForwardPositions (real_angles 0 90 90 0 0 0)) 2)
    as [point|] eqn:Hp.
  - exists point.
    assert (Hin : In point (computeForwardPositions (real_angles 0 90 90 0 0 0)))
      by (eapply nth_error_In; exact Hp).
    split; [exact Hin|]. split; [apply Hz; reflexivity|].
    apply (ground_violation_threshold (real_angles 0 90 90 0 0 0));
      [exact Hin|apply Hz; reflexivity].
  - rewrite computeForwardPositions_real in Hp. discriminate Hp.
Defined.

(** C6, as the specification states it, fails.  In the pose shoulder 90,
    elbow 0, wrist 30 the end point is 2.6 mm under the ground plane
    (z < 0), yet the validator reports nothing and returns no risk. *)
Lemma ground_violation_below_zero_counterexample :
  (exists point,
     In point (computeForwardPositions (real_angles 0 90 0 30 0 0)) /\
     (KeyPoint.z point <? 0)%js = true) /\
  quickCollisionCheck (real_angles 0 90 0 30 0 0) = ([], false) /\
  (forall point, ~ reports (real_angles 0 90 0 30 0 0) (ground_msg point)).
Proof.
  assert (Hpass : quickCollisionCheck (real_angles 0 90 0 30 0 0) = ([], false)).
  { apply quickCollisionCheck_pass.
    - unfold JOINT_LIMITS_DEG.
      repeat (constructor 2; [unfold within; simpl; lra|]). constructor 1.
    - simpl. unfold SHOULDER_ELBOW_MIN, SHOULDER_ELBOW_MAX, ELBOW_FORWARD_MAX,
        WRIST_COUPLED_LIMIT. rewrite Rabs_R0, (Rabs_pos_eq 30) by lra.
      repeat split; lra.
    - apply chain_reach_down_clear. }
  split; [|split; [exact Hpass|]].
  - rewrite computeForwardPositions_real. eexists. split.
    + right; right; left; reflexivity.
    + cbn [KeyPoint.z jlt]. apply Rltb_true.
      pose proof chain_reach_down as Hc. unfold chain in Hc.
      injection Hc as _ _ _ _ _ Hh. rewrite Hh. lra.
  - intros point Hr. unfold reports in Hr. rewrite Hpass in Hr. destruct Hr.
Qed.

(** ** Action sequence player *)

(** C8.  A call to [playActionSequence] while a sequence is playing does
    nothing but log one message: it returns normally, the commanded
    angles, both queues of the host (hence the keyframes of the active
    sequence), the playing flag and the gripper are as before, and the
    only event is one call to [addLog]. *)
Theorem playActionSequence_while_playing (arg : sequenceOrName) (s : state) :
  isPlayingSequence s = true ->
  exists msg color,
    playActionSequence arg s = (log msg color s, Ok tt) /\
    let s' := (playActionSequence arg s).1 in
    targetAngles s' = targetAngles s /\
    frames s' = frames s /\
    timers s' = timers s /\
    isPlayingSequence s' = true /\
    currentSequence s' = currentSequence s /\
    gripperOpen s' = gripperOpen s /\
    trace s' = trace s ++ [addLog msg color].
Proof.
  intros Hplaying. unfold playActionSequence, play_found.
  destruct arg as [name|sq]; [destruct (library_lookup actionLibrary name)|];
    rewrite ?Hplaying; eexists _, _; (split; [reflexivity|]);
    cbn; rewrite ?Hplaying; repeat split; reflexivity.
Qed.

Lemma playActionSequence_while_playing_witness :
  isPlayingSequence (set_isPlayingSequence true initial_state) = true /\
  exists msg color,
    playActionSequence (by_name "nod") (set_isPlayingSequence true initial_state) =
      (log msg color (set_isPlayingSequence true initial_state), Ok tt) /\
    let s' := (playActionSequence (by_name "nod")
                 (set_isPlayingSequence true initial_state)).1 in
    targetAngles s' = targetAngles (set_isPlayingSequence true initial_state) /\
    frames s' = frames (set_isPlayingSequence true initial_state) /\
    timers s' = timers (set_isPlayingSequence true initial_state) /\
    isPlayingSequence s' = true /\
    currentSequence s' = currentSequence (set_isPlayingSequence true initial_state) /\
    gripperOpen s' = gripperOpen (set_isPlayingSequence true initial_state) /\
    trace s' = trace (set_isPlayingSequence true initial_state) ++ [addLog msg color].
Proof.
  split; [reflexivity|].
  apply (playActionSequence_while_playing (by_name "nod")
           (set_isPlayingSequence true initial_state)).
  reflexivity.
Defined.

(** C7, on the code.  When no sequence is playing, a call with a key of the
    library sets the playing flag and then throws on the undeclared
    identifier [sequenceName]: no keyframe is clamped, validated or
    interpolated, nothing is logged or queued, and the flag stays set. *)
Theorem playActionSequence_throws_before_first_keyframe
    (name : string) (sq : sequence) (s : state) :
  library_lookup actionLibrary name = Some sq ->
  isPlayingSequence s = false ->
  playActionSequence (by_name name) s =
    (set_isPlayingSequence true s,
     Throw (ReferenceError "sequenceName is not defined")) /\
  let s' := (playActionSequence (by_name name) s).1 in
  isPlayingSequence s' = true /\
  targetAngles s' = targetAngles s /\
  frames s' = frames s /\
  timers s' = timers s /\
  trace s' = trace s.
Proof.
  intros Hlib Hidle. unfold playActionSequence, play_found. rewrite Hlib, Hidle.
  split; [reflexivity|]. cbn. repeat split; reflexivity.
Qed.

Lemma playActionSequence_throws_before_first_keyframe_witness :
  library_lookup actionLibrary "nod" <> None /\
  isPlayingSequence initial_state = false /\
  playActionSequence (by_name "nod") initial_state =
    (set_isPlayingSequence true initial_state,
     Throw (ReferenceError "sequenceName is not defined")) /\
  isPlayingSequence (playActionSequence (by_name "nod") initial_state).1 = true /\
  targetAngles (playActionSequence (by_name "nod") initial_state).1 =
    targetAngles initial_state.
Proof.
  destruct (library_lookup actionLibrary "nod") as [sq|] eqn:Hlib;
    [|discriminate Hlib].
  split; [discriminate|]. split; [reflexivity|].
  destruct (playActionSequence_throws_before_first_keyframe "nod" sq initial_state
              Hlib eq_refl) as (Hrun & Hflag & Hangles & _).
  split; [exact Hrun|]. split; [exact Hflag|exact Hangles].
Defined.

(** ** Cartesian path planner: aborting a plan *)

(** A verdict without risk carries no message. *)
Lemma also_quiet (x y : list event * bool) :
  (x.2 = false -> x.1 = []) -> (y.2 = false -> y.1 = []) ->
  (also x y).2 = false -> (also x y).1 = [].
Proof.
  unfold also. cbn [fst snd]. intros Hx Hy [Hx2 Hy2]%orb_false_iff.
  rewrite (Hx Hx2), (Hy Hy2). reflexivity.
Qed.

Lemma flag_quiet (c : bool) (msg : message) (color : string) :
  (flag c msg color).2 = false -> (flag c msg color).1 = [].
Proof. destruct c; [discriminate|reflexivity]. Qed.

Lemma fold_also_quiet (l : list (list event * bool)) (acc : list event * bool) :
  Forall (fun x => x.2 = false -> x.1 = []) l ->
  (acc.2 = false -> acc.1 = []) ->
  (fold_left also l acc).2 = false -> (fold_left also l acc).1 = [].
Proof.
  revert acc. induction l as [|x l IH]; intros acc Hl Hacc; simpl; [exact Hacc|].
  inversion Hl; subst. apply IH; [assumption|]. apply also_quiet; assumption.
Qed.

Lemma quickCollisionCheck_quiet (a : angles) :
  (quickCollisionCheck a).2 = false -> (quickCollisionCheck a).1 = [].
Proof.
  unfold quickCollisionCheck.
  apply also_quiet; [|do 4 (apply also_quiet; [apply flag_quiet|])].
  - apply fold_also_quiet; [|reflexivity].
    apply imap_Forall. intros i x. unfold check_entry.
    destruct (JOINT_LIMITS_DEG !! i); [apply flag_quiet|reflexivity].
  - rewrite geometry_as_fold. apply fold_also_quiet; [|reflexivity].
    apply Forall_forall. intros x (p & <- & _)%list_elem_of_In%in_map_iff.
    unfold check_point. apply also_quiet; apply flag_quiet.
Qed.

(** The planning loop over samples that all solve and validate runs to
    the next sample, logging nothing. *)
Lemma plan_loop_passes (ik : ik_oracle) (passed rest : list Point.t)
    (i : nat) (jointPath : list angles) (s : state) :
  Forall (fun p => exists a, (callIK ik p).2 = Ok a /\
                             (quickCollisionCheck a).2 = false) passed ->
  exists joints,
    length joints = length passed /\
    plan_loop ik (passed ++ rest) i jointPath s =
    plan_loop ik rest (i + length passed) (jointPath ++ joints) s.
Proof.
  revert i jointPath. induction passed as [|p passed IH]; intros i jp Hall.
  - exists []. split; [reflexivity|]. simpl.
    rewrite Nat.add_0_r, app_nil_r. reflexivity.
  - inversion Hall as [|? ? (a & Hcall & Hrisk) Hrest]; subst.
    destruct (IH (S i) (jp ++ [a]) Hrest) as (joints & Hlen & Hrun).
    exists (a :: joints). split; [simpl; rewrite Hlen; reflexivity|].
    cbn [app plan_loop].
    assert (Hev : (callIK ik p).1 = []).
    { revert Hcall. unfold callIK.
      destruct (match ik p with
                | ik_throws e => Throw e
                | ik_result true a0 _ =>
                    obind (enforceJointSafety (mapAnglesObjectToArray a0))
                      (fun safeAngles => Ok (mapAnglesArrayToObject safeAngles))
                | ik_result false _ m => _
                end); [reflexivity|discriminate]. }
    rewrite Hev, Hcall, (quickCollisionCheck_quiet a Hrisk), Hrisk.
    assert (Hemit : emit [] (emit [] s) = s).
    { unfold emit. cbn. rewrite !app_nil_r. destruct s; reflexivity. }
    rewrite Hemit, Hrun. rewrite <- app_assoc. cbn [app length].
    rewrite Nat.add_succ_r. reflexivity.
Qed.

Lemma emit_nil (s : state) : emit [] s = s.
Proof. unfold emit, set_trace. rewrite app_nil_r. destruct s; reflexivity. Qed.

Lemma emit_emit (a b : list event) (s : state) : emit b (emit a s) = emit (a ++ b) s.
Proof. unfold emit, set_trace. cbn. rewrite <- app_assoc. reflexivity. Qed.

Lemma callIK_throw_events (ik : ik_oracle) (p : Point.t) (e : error) :
  (callIK ik p).2 = Throw e -> (callIK ik p).1 = [console_error "IK调用failed:" e].
Proof.
  unfold callIK.
  destruct (match ik p with
            | ik_throws e0 => Throw e0
            | ik_result true a0 _ =>
                obind (enforceJointSafety (mapAnglesObjectToArray a0))
                  (fun safeAngles => Ok (mapAnglesArrayToObject safeAngles))
            | ik_result false _ m => _
            end); cbn; [discriminate|]. intros [= ->]. reflexivity.
Qed.

(** C3, on the code: a sample whose request throws.  Whatever the number
    of samples that solved and validated before it, [moveToTarget] returns
    normally with the commanded angles, the target position and both
    queues untouched and nothing sent on the socket; its four events are
    the two planning messages, the console error and the message
    ['路径点${i}IKfailed: ' + e.message], in which [${i}] is literal text:
    none of them depends on the index of the failing sample. *)
Theorem moveToTarget_ik_failure (ik : ik_oracle) (x y z : R) (samples : option Z)
    (s : state) (passed : list Point.t) (failing : Point.t) (rest : list Point.t)
    (e : error) :
  sampleLinePath (endEffectorPos s) (real_point x y z) samples =
    passed ++ failing :: rest ->
  Forall (fun p => exists a, (callIK ik p).2 = Ok a /\
                             (quickCollisionCheck a).2 = false) passed ->
  (callIK ik failing).2 = Throw e ->
  moveToTarget ik x y z samples s =
    (emit (ik_failure_events z (length (passed ++ failing :: rest)) e) s, Ok tt) /\
  let s' := (moveToTarget ik x y z samples s).1 in
  targetAngles s' = targetAngles s /\
  targetEndEffectorPos s' = targetEndEffectorPos s /\
  frames s' = frames s /\
  timers s' = timers s /\
  (forall m, ~ In (ws_send m) (ik_failure_events z (length (passed ++ failing :: rest)) e)).
Proof.
  intros Hpath Hpassed Hfail.
  assert (Hrun : moveToTarget ik x y z samples s =
    (emit (ik_failure_events z (length (passed ++ failing :: rest)) e) s, Ok tt)).
  { unfold moveToTarget, try_catch, bind, modify, ret. cbn [fst snd].
    change {| Point.x := Num x; Point.y := Num y; Point.z := Num z |}
      with (real_point x y z).
    change (endEffectorPos (log _ _ s)) with (endEffectorPos s).
    rewrite Hpath.
    match goal with
    | |- context [plan_loop ik (passed ++ failing :: rest) 0 [] ?st] =>
        destruct (plan_loop_passes ik passed (failing :: rest) 0 [] st Hpassed)
          as (joints & _ & ->)
    end.
    cbn [plan_loop]. rewrite Hfail, (callIK_throw_events ik failing e Hfail).
    unfold log. rewrite !emit_emit. reflexivity. }
  split; [exact Hrun|]. rewrite Hrun. cbn.
  repeat split; try reflexivity.
  intros m [H|[H|[H|[H|[]]]]]; discriminate H.
Qed.

Lemma Reqb_true (a b : R) : a = b -> Reqb a b = true.
Proof. intros H. unfold Reqb. destruct (Req_dec_T a b); [reflexivity|contradiction]. Qed.

Lemma Reqb_false (a b : R) : a <> b -> Reqb a b = false.
Proof. intros H. unfold Reqb. destruct (Req_dec_T a b); [contradiction|reflexivity]. Qed.

(** A vector of six reals inside every limit and coupling rule is
    returned unchanged by the enforcer. *)
Lemma enforceJointSafety_fixed (v : list R) :
  Forall2 within JOINT_LIMITS_DEG v -> coupled v ->
  enforceJointSafety (Num <$> v) = Ok (Num <$> v).
Proof.
  intros Hin Hco.
  assert (Hlen : length v = 6%nat).
  { apply Forall2_length in Hin. rewrite <- Hin. reflexivity. }
  destruct (enforceJointSafety_Num v Hlen) as (out & Hrun & _ & _ & Hid).
  rewrite Hrun, (Hid Hin Hco). reflexivity.
Qed.

Lemma home_within : Forall2 within JOINT_LIMITS_DEG [0; 0; 0; 0; 0; 0].
Proof.
  unfold JOINT_LIMITS_DEG.
  repeat (constructor 2; [unfold within; simpl; lra|]). constructor 1.
Qed.

Lemma home_coupled : coupled [0; 0; 0; 0; 0; 0].
Proof.
  simpl. unfold SHOULDER_ELBOW_MIN, SHOULDER_ELBOW_MAX, ELBOW_FORWARD_MAX,
    WRIST_COUPLED_LIMIT. rewrite Rabs_R0. repeat split; lra.
Qed.

(** The home pose passes the validator. *)
Lemma home_pose_safe : quickCollisionCheck (real_angles 0 0 0 0 0 0) = ([], false).
Proof.
  apply quickCollisionCheck_pass;
    [apply home_within|apply home_coupled|apply chain_upright_clear].
Qed.

Lemma moveToTarget_ik_failure_witness :
  let report := ik_failure_events 0.3 16 (Error "unreachable") in
  (* the request fails at sample 0 *)
  moveToTarget ik_nowhere 0.15 0 0.3 None initial_state =
    (emit report initial_state, Ok tt) /\
  (* sample 0 solves and validates, the request fails at sample 1 *)
  moveToTarget ik_beyond_origin 0.15 0 0.3 None initial_state =
    (emit report initial_state, Ok tt).
Proof.
  set (path := sampleLinePath (endEffectorPos initial_state)
                 (real_point 0.15 0 0.3) None).
  assert (Hsplit0 : path = [] ++ hd (real_point 0 0 0) path :: tl path)
    by reflexivity.
  assert (Hsplit1 : path = firstn 1 path ++
                      hd (real_point 0 0 0) (skipn 1 path) :: skipn 2 path)
    by reflexivity.
  split.
  - exact (proj1 (moveToTarget_ik_failure ik_nowhere 0.15 0 0.3 None initial_state
                    [] _ _ (Error "unreachable") Hsplit0 ltac:(constructor) eq_refl)).
  - refine (proj1 (moveToTarget_ik_failure ik_beyond_origin 0.15 0 0.3 None
                     initial_state (firstn 1 path) _ _ (Error "unreachable")
                     Hsplit1 _ _)).
    + constructor; [|constructor].
      exists (real_angles 0 0 0 0 0 0).
      split; [|rewrite home_pose_safe; reflexivity].
      cbv zeta. change (default 15%Z None) with 15%Z.
      cbn [endEffectorPos initial_state real_point Point.x Point.y Point.z].
      rewrite jdiv_Num by lra. cbn [jadd jsub jmul jneg].
      unfold callIK, ik_beyond_origin. cbn [Point.x].
      rewrite Reqb_true by (simpl; lra).
      change (mapAnglesObjectToArray (real_angles 0 0 0 0 0 0))
        with (Num <$> [0; 0; 0; 0; 0; 0]).
      rewrite (enforceJointSafety_fixed _ home_within home_coupled). reflexivity.
    + change (hd (real_point 0 0 0) (skipn 1 path))
        with (default (real_point 0 0 0) (path !! 1%nat)).
      unfold path.
      change (sampleLinePath (endEffectorPos initial_state) (real_point 0.15 0 0.3) None)
        with (sampleLinePath (real_point 0 0 0) (real_point 0.15 0 0.3) (Some 15%Z)).
      rewrite sample_point by lia. cbv [default from_option Datatypes.id].
      unfold callIK, ik_beyond_origin, lerp_point, real_point. cbn [Point.x].
      rewrite Reqb_false; [reflexivity|].
      apply Rgt_not_eq. simpl. lra.
Defined.

(** The collision exit of the planner: sample [length passed] solves to a
    pose the validator refuses.  The last message carries that index;
    nothing but the trace changes and nothing is sent. *)
Lemma moveToTarget_collision (ik : ik_oracle) (x y z : R) (samples : option Z)
    (s : state) (passed : list Point.t) (failing : Point.t) (rest : list Point.t)
    (a : angles) :
  sampleLinePath (endEffectorPos s) (real_point x y z) samples =
    passed ++ failing :: rest ->
  Forall (fun p => exists a, (callIK ik p).2 = Ok a /\
                             (quickCollisionCheck a).2 = false) passed ->
  (callIK ik failing).2 = Ok a ->
  (quickCollisionCheck a).2 = true ->
  moveToTarget ik x y z samples s =
    (emit (collision_events z (length (passed ++ failing :: rest)) (length passed) a) s,
     Ok tt) /\
  (forall m, ~ In (ws_send m)
                 (collision_events z (length (passed ++ failing :: rest))
                    (length passed) a)).
Proof.
  intros Hpath Hpassed Hcall Hrisk. split.
  - unfold moveToTarget, try_catch, bind, modify, ret. cbn [fst snd].
    change {| Point.x := Num x; Point.y := Num y; Point.z := Num z |}
      with (real_point x y z).
    change (endEffectorPos (log _ _ s)) with (endEffectorPos s).
    rewrite Hpath.
    match goal with
    | |- context [plan_loop ik (passed ++ failing :: rest) 0 [] ?st] =>
        destruct (plan_loop_passes ik passed (failing :: rest) 0 [] st Hpassed)
          as (joints & _ & ->)
    end.
    cbn [plan_loop]. rewrite Hcall, Hrisk.
    assert (Hev : (callIK ik failing).1 = []).
    { revert Hcall. unfold callIK.
      destruct (match ik failing with
                | ik_throws e => Throw e
                | ik_result true a0 _ =>
                    obind (enforceJointSafety (mapAnglesObjectToArray a0))
                      (fun safeAngles => Ok (mapAnglesArrayToObject safeAngles))
                | ik_result false _ m => _
                end); [reflexivity|discriminate]. }
    rewrite Hev. unfold log. rewrite !emit_emit. reflexivity.
  - unfold collision_events. intros m Hin.
    apply in_app_or in Hin as [[H|[H|[]]]|Hin]; try discriminate H.
    apply in_app_or in Hin as [Hin|[H|[]]]; [|discriminate H].
    apply quickCollisionCheck_events in Hin.
    destruct Hin as [H|[[_ H]|[[_ H]|[[_ H]|[[_ H]|H]]]]]; try discriminate H.
    + apply limit_events in H as [l H]. discriminate H.
    + apply geometry_events in H as (p & _ & [[_ H]|[_ H]]); discriminate H.
Qed.

(** ** Trajectory executor *)

(** [getSafeAngles] changes nothing but the trace. *)
Lemma getSafeAngles_trace (a : angles) (source : message) (s : state) :
  exists evs r, getSafeAngles a source s = (emit evs s, r).
Proof.
  unfold getSafeAngles, bind, modify, ret.
  destruct (enforceJointSafety (mapAnglesObjectToArray a)) as [safeArray|e].
  - destruct (quickCollisionCheck (mapAnglesArrayToObject safeArray)) as [evs risk].
    cbn [fst snd]. destruct risk.
    + eexists _, _. unfold log. rewrite emit_emit. reflexivity.
    + eexists _, _. reflexivity.
  - exists [], (Throw e). rewrite emit_nil. reflexivity.
Qed.

(** A pose with real angles that needs no correction and is clear of the
    ground and the pedestal is accepted as it is. *)
Lemma getSafeAngles_pass (j1 j2 j3 j4 j5 j6 : R) (source : message) (s : state) :
  Forall2 within JOINT_LIMITS_DEG [j1; j2; j3; j4; j5; j6] ->
  coupled [j1; j2; j3; j4; j5; j6] ->
  Forall clear (chain j2 j3 j4) ->
  getSafeAngles (real_angles j1 j2 j3 j4 j5 j6) source s =
    (s, Ok (Some {| deg := real_angles j1 j2 j3 j4 j5 j6;
                    rad := Num <$> to_rad [j1; j2; j3; j4; j5; j6] |})).
Proof.
  intros Hin Hco Hcl. unfold getSafeAngles, bind, modify, ret.
  change (mapAnglesObjectToArray (real_angles j1 j2 j3 j4 j5 j6))
    with (Num <$> [j1; j2; j3; j4; j5; j6]).
  rewrite (enforceJointSafety_fixed _ Hin Hco).
  change (mapAnglesArrayToObject (Num <$> [j1; j2; j3; j4; j5; j6]))
    with (real_angles j1 j2 j3 j4 j5 j6).
  rewrite (quickCollisionCheck_pass _ _ _ _ _ _ Hin Hco Hcl).
  cbn [fst snd]. rewrite emit_nil. reflexivity.
Qed.

Lemma lerp_js (e : R) (sa ga : list R) :
  (length sa <= length ga)%nat ->
  imap (fun i start => (start + (cell (Num <$> ga) i - start) * Num e)%js) (Num <$> sa) =
  Num <$> lerpR e sa ga.
Proof.
  unfold lerpR. revert ga. induction sa as [|x sa IH]; intros ga Hlen; [reflexivity|].
  destruct ga as [|g ga]; [simpl in Hlen; lia|].
  cbn [fmap list_fmap imap]. f_equal.
  - apply IH. simpl in Hlen. lia.
Qed.

Lemma lerpR_end (sa ga : list R) :
  length sa = length ga -> lerpR 1 sa ga = ga.
Proof.
  unfold lerpR. revert ga. induction sa as [|x sa IH]; intros ga Hlen.
  - destruct ga; [reflexivity|discriminate Hlen].
  - destruct ga as [|g ga]; [discriminate Hlen|].
    cbn [imap]. f_equal; [simpl; ring|].
    apply IH. simpl in Hlen. lia.
Qed.

Lemma imap_same {A} (f : nat -> A -> A) (l : list A) :
  (forall i x, f i x = x) -> imap f l = l.
Proof.
  revert f. induction l as [|x l IH]; intros f Hf; [reflexivity|].
  cbn [imap]. rewrite Hf. f_equal. apply IH. intros i y. apply Hf.
Qed.

Lemma lerpR_begin (sa ga : list R) : lerpR 0 sa ga = sa.
Proof. unfold lerpR. apply imap_same. intros i x. ring. Qed.

Lemma progress_real (t t0 d : R) :
  0 < d ->
  Math_min ((Num t - Num t0) / Num d)%js 1 = Num (Rmin ((t - t0) / d) 1).
Proof. intros Hd. cbn [jsub jadd jneg]. rewrite jdiv_Num by lra. reflexivity. Qed.

Lemma inline_ease_real (p : R) :
  (if (Num p <? 0.5)%js
   then (4 * Num p * Num p * Num p)%js
   else (1 - Math_pow (-2 * Num p + 2)%js 3 / 2)%js) = Num (easeR p).
Proof.
  unfold easeR. cbn [jlt]. unfold Rltb. destruct (Rlt_dec p 0.5); [reflexivity|].
  cbn [Math_pow jmul jadd jneg]. rewrite jdiv_Num by lra. reflexivity.
Qed.

Lemma easeInOutCubic_real (p : R) : easeInOutCubic (Num p) = Num (easeR p).
Proof. apply inline_ease_real. Qed.

(** One run of [interpolate] on real vectors and a positive duration. *)
Lemma run_interpolate_real (sa ga : list R) (t0 d : R) (s : state) :
  (length sa <= length ga)%nat -> 0 < d ->
  run_interpolate (Num <$> sa) (Num <$> ga) t0 (Num d) s =
  let p := Rmin ((now s - t0) / d) 1 in
  let s1 := set_targetAngles (Num <$> lerpR (easeR p) sa ga) s in
  if Rlt_dec p 1 then
    (requestAnimationFrame (interpolate (Num <$> sa) (Num <$> ga) t0 (Num d)) s1).2
  else if connected s then sendCommand (move_to_angles (Num <$> ga)) s1
  else s1.
Proof.
  intros Hlen Hd. unfold run_interpolate.
  rewrite progress_real by assumption. rewrite inline_ease_real.
  rewrite lerp_js by assumption. cbn [jlt]. unfold Rltb.
  cbv zeta. destruct (Rlt_dec (Rmin ((now s - t0) / d) 1) 1); reflexivity.
Qed.

Lemma length_lerpR (e : R) (sa ga : list R) : length (lerpR e sa ga) = length sa.
Proof. unfold lerpR. apply length_imap. Qed.

Lemma easeR_0 : easeR 0 = 0.
Proof. unfold easeR. destruct (Rlt_dec 0 0.5); lra. Qed.

Lemma easeR_1 : easeR 1 = 1.
Proof. unfold easeR. destruct (Rlt_dec 1 0.5); lra. Qed.

(** [updateRobotJoints] once its pose is accepted: the first run of the
    new closure, on the state left by [getSafeAngles]. *)
Lemma updateRobotJoints_accepted (a : angles) (duration : jsval) (s s1 : state)
    (safe : safe_angles) :
  getSafeAngles a [Str "手动控制"] s = (s1, Ok (Some safe)) ->
  updateRobotJoints a duration s =
    (run_interpolate (targetAngles s1) (rad safe) (now s1)
       (match duration with Undefined => Num 1500 | d => d end) s1, Ok tt).
Proof.
  intros Hsafe. unfold updateRobotJoints, bind. rewrite Hsafe. reflexivity.
Qed.

(** The first run of a closure, at the instant it is created. *)
Lemma run_interpolate_first (sa ga : list jsval) (d : R) (s : state) :
  0 < d ->
  frames (run_interpolate sa ga (now s) (Num d) s) =
    frames s ++ [(next_handle s, interpolate sa ga (now s) (Num d))] /\
  timers (run_interpolate sa ga (now s) (Num d) s) = timers s.
Proof.
  intros Hd. unfold run_interpolate.
  rewrite progress_real by assumption.
  replace ((now s - now s) / d) with 0 by (field; lra).
  rewrite Rmin_left by lra. cbn [jlt]. rewrite Rltb_true by lra.
  split; reflexivity.
Qed.


(** The last value in double arithmetic: with [eased = 1] a closure
    writes [start + (goal - start)] as the doubles round it, which is the
    goal up to that rounding.  From 0.03 to the radians of -15 degrees it
    is the double next to the goal. *)
Lemma interpolated_at_the_end (start goal : float) :
  Binary64.interpolated start goal 1 = (start + (goal - start))%float.
Proof. unfold Binary64.interpolated. rewrite mul_one. reflexivity. Qed.

Lemma interpolated_at_the_end_inexact :
  Binary64.interpolated 0.03 (-0.2617993877991494) 1 = (-0.26179938779914935)%float /\
  (-0.26179938779914935 =? -0.2617993877991494)%float = false.
Proof. split; reflexivity. Qed.

(** *** Two overlapping runs *)

Lemma set_targetAngles_same (s : state) : set_targetAngles (targetAngles s) s = s.
Proof. destruct s; reflexivity. Qed.

(** A run started on a pose that is accepted as it is. *)
Lemma start_run (j1 j2 j3 j4 j5 j6 d : R) (duration : jsval) (cur : list R)
    (s : state) :
  Forall2 within JOINT_LIMITS_DEG [j1; j2; j3; j4; j5; j6] ->
  coupled [j1; j2; j3; j4; j5; j6] ->
  Forall clear (chain j2 j3 j4) ->
  match duration with Undefined => Num 1500 | v => v end = Num d -> 0 < d ->
  targetAngles s = Num <$> cur -> (length cur <= 6)%nat ->
  (updateRobotJoints (real_angles j1 j2 j3 j4 j5 j6) duration s).1 =
    (requestAnimationFrame
       (interpolate (Num <$> cur) (Num <$> to_rad [j1; j2; j3; j4; j5; j6])
          (now s) (Num d)) s).2.
Proof.
  intros Hin Hco Hcl Hdur Hd Hcur Hlen.
  rewrite (updateRobotJoints_accepted _ duration s s _
             (getSafeAngles_pass j1 j2 j3 j4 j5 j6 _ s Hin Hco Hcl)).
  cbn [fst rad]. rewrite Hdur, Hcur.
  rewrite run_interpolate_real by (assumption || (simpl; lia)). cbv zeta.
  replace ((now s - now s) / d) with 0 by (field; lra).
  rewrite Rmin_left by lra. destruct (Rlt_dec 0 1); [|lra].
  rewrite easeR_0, lerpR_begin, <- Hcur, set_targetAngles_same. reflexivity.
Qed.

(** A frame runs a closure that is still in flight. *)
Lemma run_in_flight (sa ga : list R) (t0 d0 : R) (st : state) :
  length sa = length ga -> 0 < d0 -> t0 <= now st < t0 + d0 ->
  run_callback (interpolate (Num <$> sa) (Num <$> ga) t0 (Num d0)) st =
    (requestAnimationFrame (interpolate (Num <$> sa) (Num <$> ga) t0 (Num d0))
       (set_targetAngles (Num <$> lerpR (easeR ((now st - t0) / d0)) sa ga) st)).2.
Proof.
  intros Hlen Hd0 [Hlo Hhi]. cbn [run_callback].
  rewrite run_interpolate_real by (assumption || lia). cbv zeta.
  assert (Hp : (now st - t0) / d0 < 1).
  { apply (Rmult_lt_reg_r d0); [assumption|]. field_simplify; lra. }
  rewrite Rmin_left by lra.
  destruct (Rlt_dec ((now st - t0) / d0) 1); [reflexivity|contradiction].
Qed.

(** A frame runs a closure whose duration has elapsed, off line. *)
Lemma run_finished (sa ga : list R) (t0 d0 : R) (st : state) :
  length sa = length ga -> 0 < d0 -> t0 + d0 <= now st -> connected st = false ->
  run_callback (interpolate (Num <$> sa) (Num <$> ga) t0 (Num d0)) st =
    set_targetAngles (Num <$> ga) st.
Proof.
  intros Hlen Hd0 Hend Hoff. cbn [run_callback].
  rewrite run_interpolate_real by (assumption || lia). cbv zeta.
  assert (Hp : 1 <= (now st - t0) / d0).
  { apply (Rmult_le_reg_r d0); [assumption|]. field_simplify; lra. }
  rewrite Rmin_right by lra. destruct (Rlt_dec 1 1); [lra|].
  rewrite easeR_1, lerpR_end, Hoff by assumption. reflexivity.
Qed.

Lemma turned_within : Forall2 within JOINT_LIMITS_DEG [90; 0; 0; 0; 0; 0].
Proof.
  unfold JOINT_LIMITS_DEG.
  repeat (constructor 2; [unfold within; simpl; lra|]). constructor 1.
Qed.

Ltac state_simpl :=
  cbn [targetAngles targetEndEffectorPos endEffectorPos connected ws_ready
       isPlayingSequence currentSequence gripperOpen animationFrame now frames
       timers next_handle trace
       set_targetAngles set_targetEndEffectorPos set_isPlayingSequence
       set_currentSequence set_gripperOpen set_animationFrame set_now
       set_frames set_timers set_next_handle set_trace
       requestAnimationFrame initial_state do_step animation_frame
       fst snd app fold_left].

(** The state [first_run_in_flight]: one closure is waiting, the commanded
    vector is the value it wrote at 1000 ms. *)
Lemma first_run_in_flight_state :
  let goal_turned := to_rad [90; 0; 0; 0; 0; 0] in
  let mid := lerpR (easeR ((1000 - 0) / 3000)) [0; 0; 0; 0; 0; 0] goal_turned in
  first_run_in_flight =
    set_next_handle 2
      (set_frames
         [ (1%nat, interpolate (Num <$> [0; 0; 0; 0; 0; 0]) (Num <$> goal_turned)
                     0 (Num 3000)) ]
         (set_targetAngles (Num <$> mid) (set_now 1000 initial_state))).
Proof.
  intros goal_turned mid.
  unfold first_run_in_flight, run. cbn [fold_left do_step].
  unfold pose_turned.
  rewrite (start_run 90 0 0 0 0 0 3000 (Num 3000) [0; 0; 0; 0; 0; 0] initial_state
             turned_within home_coupled chain_upright_clear eq_refl
             ltac:(lra) eq_refl ltac:(simpl; lia)).
  state_simpl.
  rewrite run_in_flight by (reflexivity || (state_simpl; lra)).
  state_simpl. reflexivity.
Qed.


(** The state after the second call of [overlapping_runs]. *)
Lemma overlapping_runs_state :
  let goal_turned := to_rad [90; 0; 0; 0; 0; 0] in
  let goal_home := to_rad [0; 0; 0; 0; 0; 0] in
  let mid := lerpR (easeR ((1000 - 0) / 3000)) [0; 0; 0; 0; 0; 0] goal_turned in
  run overlapping_runs initial_state =
    set_next_handle 3
      (set_frames
         [ (1%nat, interpolate (Num <$> [0; 0; 0; 0; 0; 0]) (Num <$> goal_turned)
                     0 (Num 3000));
           (2%nat, interpolate (Num <$> mid) (Num <$> goal_home) 1000 (Num 1500)) ]
         (set_targetAngles (Num <$> mid) (set_now 1000 initial_state))).
Proof.
  intros goal_turned goal_home mid.
  unfold overlapping_runs, run. cbn [fold_left do_step].
  unfold pose_turned, pose_home.
  rewrite (start_run 90 0 0 0 0 0 3000 (Num 3000) [0; 0; 0; 0; 0; 0] initial_state
             turned_within home_coupled chain_upright_clear eq_refl
             ltac:(lra) eq_refl ltac:(simpl; lia)).
  state_simpl.
  rewrite run_in_flight by (reflexivity || (state_simpl; lra)).
  state_simpl. fold goal_turned. fold mid.
  rewrite (start_run 0 0 0 0 0 0 1500 Undefined mid);
    [|apply home_within|apply home_coupled|apply chain_upright_clear
     |reflexivity|lra|reflexivity
     |unfold mid; rewrite length_lerpR; simpl; lia].
  state_simpl. reflexivity.
Qed.

Lemma run_app (l1 l2 : list step) (s : state) : run (l1 ++ l2) s = run l2 (run l1 s).
Proof. unfold run. apply fold_left_app. Qed.


(** ** The keyframe loop of the player

    What the loop of [playActionSequence] does from the point where it is
    entered: a refused keyframe ends the playback where the arm stands, a
    finished keyframe leaves the arm on the keyframe's pose and either
    arms the pause before the next keyframe or ends the playback. *)

Lemma play_keyframe_refused (sq : sequence) (i : nat) (keyframe : keyframe)
    (s s1 : state) :
  keyframes sq !! i = Some keyframe ->
  getSafeAngles (mapAnglesArrayToObject (kf_angles keyframe))
    [Str "动作关键帧 #"; NumStr (Num (INR i + 1))] s = (s1, Ok None) ->
  let s' := (play_keyframe sq i s).1 in
  isPlayingSequence s' = false /\
  currentSequence s' = None /\
  targetAngles s' = targetAngles s /\
  frames s' = frames s /\
  timers s' = timers s.
Proof.
  intros Hkf Hsafe s'. subst s'.
  destruct (getSafeAngles_trace (mapAnglesArrayToObject (kf_angles keyframe))
              [Str "动作关键帧 #"; NumStr (Num (INR i + 1))] s) as (evs & r & Htrace).
  rewrite Hsafe in Htrace. injection Htrace as Hs1 _. subst s1.
  unfold play_keyframe. rewrite Hkf. unfold bind. rewrite Hsafe.
  repeat split; reflexivity.
Qed.

Lemma run_animate_keyframe_finished (sq : sequence) (i : nat) (sa ea : list R)
    (t0 d : R) (s : state) :
  length sa = length ea -> 0 < d -> t0 + d <= now s ->
  run_animate_keyframe sq i (Num <$> sa) (Num <$> ea) t0 (Num d) s =
    after_keyframe sq i (set_targetAngles (Num <$> ea) s).
Proof.
  intros Hlen Hd Hend. unfold run_animate_keyframe.
  rewrite progress_real by assumption.
  assert (Hp : 1 <= (now s - t0) / d).
  { apply (Rmult_le_reg_r d); [assumption|]. field_simplify; lra. }
  rewrite Rmin_right by lra.
  rewrite easeInOutCubic_real, easeR_1, lerp_js by lia.
  rewrite lerpR_end by assumption.
  cbn [jlt]. rewrite Rltb_false by lra. reflexivity.
Qed.

Lemma after_last_keyframe (sq : sequence) (i : nat) (s : state) :
  S i = length (keyframes sq) ->
  isPlayingSequence (after_keyframe sq i s) = false /\
  currentSequence (after_keyframe sq i s) = None /\
  targetAngles (after_keyframe sq i s) = targetAngles s /\
  timers (after_keyframe sq i s) = timers s.
Proof.
  intros Hlast. unfold after_keyframe. rewrite Hlast, Nat.ltb_irrefl.
  repeat split; reflexivity.
Qed.

Lemma after_inner_keyframe (sq : sequence) (i : nat) (s : state) :
  (S i < length (keyframes sq))%nat ->
  after_keyframe sq i s = setTimeout (next_keyframe sq (S i)) 50 s.
Proof.
  intros Hin. unfold after_keyframe.
  destruct (Nat.ltb_spec (S i) (length (keyframes sq))); [reflexivity|lia].
Qed.

(* ================================================================== *)
(** * Further properties of the code *)

(** ** Joint safety enforcer: shape of the result *)

Lemma couple_shoulder_elbow_shrinks (a b c d e f : R) :
  -15 <= b <= 135 -> 0 <= c <= 140 ->
  exists c',
    couple_shoulder_elbow (Num <$> [a; b; c; d; e; f]) = Num <$> [a; b; c'; d; e; f] /\
    0 <= c' <= c /\
    (b + c <= SHOULDER_ELBOW_MAX -> c' = c).
Proof.
  intros Hb Hc.
  unfold couple_shoulder_elbow, cell, jgt; simpl. unfold Rltb.
  destruct (Rlt_dec (b + c) SHOULDER_ELBOW_MIN) as [Hlo|Hlo];
    [unfold SHOULDER_ELBOW_MIN in Hlo; lra|].
  destruct (Rlt_dec SHOULDER_ELBOW_MAX (b + c)) as [Hhi|Hhi]; simpl.
  - exists (clampR (SHOULDER_ELBOW_MAX + - b) 0 140). split; [reflexivity|].
    unfold clampR. rsolve.
  - exists c. split; [reflexivity|]. rsolve.
Qed.

Lemma couple_wrist_shrinks (a b c d e f : R) :
  -90 <= d <= 120 -> -95 <= e <= 95 ->
  exists d' e',
    couple_wrist (Num <$> [a; b; c; d; e; f]) = Num <$> [a; b; c; d'; e'; f] /\
    Rabs d' <= Rabs d /\ Rabs e' <= Rabs e /\
    (Rabs d + Rabs e <= WRIST_COUPLED_LIMIT -> d' = d /\ e' = e).
Proof.
  intros Hd He.
  destruct (couple_wrist_Num a b c d e f Hd He)
    as (d' & e' & Hrun & _ & _ & _ & Hsame & Hred).
  exists d', e'. split; [exact Hrun|].
  destruct (Rle_dec (Rabs d + Rabs e) WRIST_COUPLED_LIMIT) as [Hle|Hgt].
  - destruct (Hsame Hle) as [-> ->]. repeat split; lra.
  - destruct (Hred ltac:(lra)) as [-> ->]. cbv zeta.
    split; [|split; [|intros; lra]]; rsolve.
Qed.

(** On six reals: base, shoulder and tool come out as their own clamp;
    the elbow is never raised and the wrist angles never grow. *)
Lemma enforceJointSafety_shape (a b c d e f : R) :
  exists c' d' e',
    enforceJointSafety (Num <$> [a; b; c; d; e; f]) =
      Ok (Num <$> [clampR a (-170) 170; clampR b (-15) 135; c'; d'; e';
                   clampR f (-180) 180]) /\
    0 <= c' <= clampR c 0 140 /\
    (clampR b (-15) 135 + clampR c 0 140 <= SHOULDER_ELBOW_MAX ->
       c' = clampR c 0 140) /\
    Rabs d' <= Rabs (clampR d (-90) 120) /\
    Rabs e' <= Rabs (clampR e (-95) 95) /\
    (Rabs (clampR d (-90) 120) + Rabs (clampR e (-95) 95) <= WRIST_COUPLED_LIMIT ->
       d' = clampR d (-90) 120 /\ e' = clampR e (-95) 95).
Proof.
  unfold enforceJointSafety. rewrite per_joint_clamp_Num. cbn [obind].
  pose proof (clampR_within b (-15) 135 ltac:(lra)) as Hb.
  pose proof (clampR_within c 0 140 ltac:(lra)) as Hc.
  pose proof (clampR_within d (-90) 120 ltac:(lra)) as Hd.
  pose proof (clampR_within e (-95) 95 ltac:(lra)) as He.
  destruct (couple_shoulder_elbow_shrinks (clampR a (-170) 170) _ _
              (clampR d (-90) 120) (clampR e (-95) 95) (clampR f (-180) 180) Hb Hc)
    as (c' & -> & Hc' & Hcid).
  rewrite cap_elbow_forward_Num by lra.
  destruct (couple_wrist_shrinks (clampR a (-170) 170) (clampR b (-15) 135) c'
              _ _ (clampR f (-180) 180) Hd He)
    as (d' & e' & -> & Hd' & He' & Hwid).
  exists c', d', e'. repeat split; try assumption; try lra; apply Hwid; assumption.
Qed.

(** X1.  A vector of six reals that is inside every joint limit and obeys
    the three coupling rules is returned unchanged by the enforcer. *)
Theorem enforceJointSafety_safe_vector_unchanged (v : list R) :
  Forall2 within JOINT_LIMITS_DEG v -> coupled v ->
  enforceJointSafety (Num <$> v) = Ok (Num <$> v).
Proof. apply enforceJointSafety_fixed. Qed.

Lemma enforceJointSafety_safe_vector_unchanged_witness :
  enforceJointSafety (Num <$> [45; -10; 60; 30; -15; 45]) =
    Ok (Num <$> [45; -10; 60; 30; -15; 45]).
Proof.
  apply (enforceJointSafety_safe_vector_unchanged [45; -10; 60; 30; -15; 45]).
  - unfold JOINT_LIMITS_DEG.
    repeat (constructor 2; [unfold within; simpl; lra|]). constructor 1.
  - simpl. unfold SHOULDER_ELBOW_MIN, SHOULDER_ELBOW_MAX, ELBOW_FORWARD_MAX,
      WRIST_COUPLED_LIMIT.
    rewrite (Rabs_pos_eq 30), (Rabs_left (-15)) by lra. repeat split; lra.
Defined.

Lemma clamp_stand_in (lo hi : R) (v : jsval) :
  lo <= hi -> is_number v ->
  clamp v (Num lo) (Num hi) = Num (clampR (stand_in lo hi v) lo hi).
Proof.
  intros Hle Hv. destruct v as [| |[|]|x]; [contradiction| | | |reflexivity];
    unfold clamp, clampR; cbn; f_equal; rsolve.
Qed.

Lemma per_joint_clamp_numbers (a b c d e f : jsval) :
  Forall is_number [a; b; c; d; e; f] ->
  per_joint_clamp [a; b; c; d; e; f] =
  per_joint_clamp (Num <$> [stand_in (-170) 170 a; stand_in (-15) 135 b;
                            stand_in 0 140 c; stand_in (-90) 120 d;
                            stand_in (-95) 95 e; stand_in (-180) 180 f]).
Proof.
  intros H.
  repeat match goal with
         | H : Forall _ _ |- _ => inversion H; clear H; subst
         end.
  rewrite per_joint_clamp_Num. unfold per_joint_clamp.
  cbn [imap clamp_cell lookup list_lookup JOINT_LIMITS_DEG compose min max].
  rewrite !clamp_stand_in by (assumption || lra). reflexivity.
Qed.

(** X2.  For any six numbers, [NaN] and the infinities included, the
    enforcer returns six reals inside the joint limits that obey the three
    coupling rules.  A [NaN] cell comes out as the minimum of its joint,
    except the wrist pitch (index 4), which the wrist coupling may still
    reduce. *)
Theorem enforceJointSafety_any_numbers (v : list jsval) :
  length v = 6%nat -> Forall is_number v ->
  exists out : list R,
    enforceJointSafety v = Ok (Num <$> out) /\
    Forall2 within JOINT_LIMITS_DEG out /\
    coupled out /\
    (forall i : nat, i <> 4%nat -> v !! i = Some NaN ->
       out !! i = Some (min (limit_at i))).
Proof.
  intros Hlen Hnum.
  destruct (six_cells v Hlen) as (a & b & c & d & e & f & ->).
  set (reps := [stand_in (-170) 170 a; stand_in (-15) 135 b; stand_in 0 140 c;
                stand_in (-90) 120 d; stand_in (-95) 95 e; stand_in (-180) 180 f]).
  assert (Hsame : enforceJointSafety [a; b; c; d; e; f] =
                  enforceJointSafety (Num <$> reps)).
  { unfold enforceJointSafety. rewrite per_joint_clamp_numbers by assumption.
    reflexivity. }
  destruct (enforceJointSafety_Num reps eq_refl) as (out & Hrun & Hin & Hco & _).
  exists out. rewrite Hsame. split; [exact Hrun|]. split; [exact Hin|].
  split; [exact Hco|].
  destruct (enforceJointSafety_shape (stand_in (-170) 170 a) (stand_in (-15) 135 b)
              (stand_in 0 140 c) (stand_in (-90) 120 d) (stand_in (-95) 95 e)
              (stand_in (-180) 180 f))
    as (c' & d' & e' & Hshape & Hc' & _ & Hd' & He' & Hw).
  fold reps in Hshape. rewrite Hshape in Hrun.
  injection Hrun as Hout.
  apply (f_equal (fun l => match l with
                           | [Num o0; Num o1; Num o2; Num o3; Num o4; Num o5] =>
                               [o0; o1; o2; o3; o4; o5]
                           | _ => []
                           end)) in Hout.
  destruct out as [|o0 [|o1 [|o2 [|o3 [|o4 [|o5 [|]]]]]]]; try discriminate Hout.
  cbn in Hout. injection Hout as <- <- <- <- <- <-.
  pose proof (clampR_within (stand_in (-95) 95 e) (-95) 95 ltac:(lra)) as Hbe.
  intros i Hi4 Hnan.
  destruct i as [|[|[|[|[|[|i]]]]]]; cbn in Hnan; try discriminate Hnan;
    try (injection Hnan as ->); cbn [stand_in lookup list_lookup limit_at nth
                                     JOINT_LIMITS_DEG min]; try congruence.
  - f_equal. unfold clampR. rsolve.
  - f_equal. unfold clampR. rsolve.
  - f_equal. cbn [stand_in] in Hc'. unfold clampR in Hc'. revert Hc'. rsolve.
  - f_equal. cbn [stand_in] in Hw.
    assert (Hd0 : clampR (-90) (-90) 120 = -90) by (unfold clampR; rsolve).
    rewrite Hd0 in Hw. apply Hw.
    unfold WRIST_COUPLED_LIMIT. rewrite (Rabs_left (-90)) by lra.
    revert Hbe. unfold Rabs. rcase; intros; lra.
  - f_equal. unfold clampR. rsolve.
Qed.

Lemma enforceJointSafety_any_numbers_witness :
  exists out : list R,
    enforceJointSafety [NaN; Inf false; Num 200; Inf true; Num 10; NaN] =
      Ok (Num <$> out) /\
    Forall2 within JOINT_LIMITS_DEG out /\
    coupled out /\
    out !! 0%nat = Some (-170) /\ out !! 5%nat = Some (-180).
Proof.
  destruct (enforceJointSafety_any_numbers
              [NaN; Inf false; Num 200; Inf true; Num 10; NaN] eq_refl)
    as (out & Hrun & Hin & Hco & Hnan).
  - repeat constructor; discriminate.
  - exists out. repeat split; try assumption.
    + apply (Hnan 0%nat); [discriminate|reflexivity].
    + apply (Hnan 5%nat); [discriminate|reflexivity].
Defined.

Lemma sequence_outcome_Ok_length {A} (l : list (outcome A)) (r : list A) :
  sequence_outcome l = Ok r -> length r = length l.
Proof.
  revert r. induction l as [|m l IH]; intros r; simpl.
  - intros [= <-]. reflexivity.
  - destruct m as [a|e]; [|discriminate]. simpl.
    destruct (sequence_outcome l) as [r'|e]; [|discriminate]. simpl.
    intros [= <-]. simpl. f_equal. apply IH. reflexivity.
Qed.

Lemma couple_stages_length (safe : list jsval) :
  length (couple_wrist (cap_elbow_forward (couple_shoulder_elbow safe))) = length safe.
Proof.
  assert (H1 : length (couple_shoulder_elbow safe) = length safe).
  { unfold couple_shoulder_elbow.
    repeat match goal with |- context [if ?c then _ else _] => destruct c end;
      rewrite ?length_insert; reflexivity. }
  assert (H2 : forall l, length (cap_elbow_forward l) = length l).
  { intros l. unfold cap_elbow_forward.
    destruct (_ >? _)%js; rewrite ?length_insert; reflexivity. }
  assert (H3 : forall l, length (couple_wrist l) = length l).
  { intros l. unfold couple_wrist.
    destruct (_ >? _)%js; rewrite ?length_insert; reflexivity. }
  rewrite H3, H2, H1. reflexivity.
Qed.

(** X3.  The enforcer keeps the length of an array of at most six cells,
    whatever they hold, and throws a [TypeError] on an array of more than
    six cells (the seventh has no entry in [JOINT_LIMITS_DEG]). *)
Theorem enforceJointSafety_length (v : list jsval) :
  ((length v <= 6)%nat ->
     exists out, enforceJointSafety v = Ok out /\ length out = length v) /\
  ((6 < length v)%nat ->
     exists what, enforceJointSafety v = Throw (TypeError what)).
Proof.
  split.
  - intros Hlen. unfold enforceJointSafety.
    destruct (per_joint_clamp v) as [safe|e] eqn:Hclamp.
    + eexists. split; [reflexivity|]. rewrite couple_stages_length.
      unfold per_joint_clamp in Hclamp.
      apply sequence_outcome_Ok_length in Hclamp.
      rewrite Hclamp, length_imap. reflexivity.
    + exfalso. revert Hclamp. unfold per_joint_clamp.
      do 7 (destruct v as [|? v]; [discriminate|]). simpl in Hlen. lia.
  - intros Hlen. unfold enforceJointSafety, per_joint_clamp.
    do 7 (destruct v as [|? v]; [simpl in Hlen; lia|]).
    eexists. reflexivity.
Qed.

Lemma enforceJointSafety_length_witness :
  (exists out, enforceJointSafety [Num 500; NaN; Undefined] = Ok out /\
               length out = 3%nat) /\
  (exists what,
     enforceJointSafety (Num <$> [0; 0; 0; 0; 0; 0; 0]) = Throw (TypeError what)).
Proof.
  split.
  - apply (proj1 (enforceJointSafety_length [Num 500; NaN; Undefined])).
    simpl. lia.
  - apply (proj2 (enforceJointSafety_length (Num <$> [0; 0; 0; 0; 0; 0; 0]))).
    simpl. lia.
Defined.

(** X4.  On six reals the coupling corrections touch only the elbow and
    the two wrist joints, and only towards zero: base, shoulder and tool
    come out as their own clamped value, the elbow is never raised above
    its clamped value, and neither wrist angle grows in magnitude. *)
Theorem enforceJointSafety_corrections_shrink (a b c d e f : R) :
  exists c' d' e',
    enforceJointSafety (Num <$> [a; b; c; d; e; f]) =
      Ok (Num <$> [clampR a (-170) 170; clampR b (-15) 135; c'; d'; e';
                   clampR f (-180) 180]) /\
    0 <= c' <= clampR c 0 140 /\
    Rabs d' <= Rabs (clampR d (-90) 120) /\
    Rabs e' <= Rabs (clampR e (-95) 95).
Proof.
  destruct (enforceJointSafety_shape a b c d e f)
    as (c' & d' & e' & Hrun & Hc' & _ & Hd' & He' & _).
  exists c', d', e'. repeat split; assumption || lra.
Qed.

(** ** Joint angle objects *)

(** X5.  Array to object and back: six numbers survive the round trip
    unchanged; in general the result always has six cells, cell [i] being
    cell [i] of the input with a missing cell replaced by 0.  Object to
    array and back returns an object whose fields are all numbers. *)
Theorem angles_round_trip :
  (forall l : list jsval,
     length l = 6%nat -> Forall is_number l ->
     mapAnglesObjectToArray (mapAnglesArrayToObject l) = l) /\
  (forall l : list jsval,
     length (mapAnglesObjectToArray (mapAnglesArrayToObject l)) = 6%nat /\
     forall i : nat, (i < 6)%nat ->
       cell (mapAnglesObjectToArray (mapAnglesArrayToObject l)) i =
       nullish0 (cell l i)) /\
  (forall a : angles,
     Forall is_number [joint1 a; joint2 a; joint3 a; joint4 a; joint5 a; joint6 a] ->
     mapAnglesArrayToObject (mapAnglesObjectToArray a) = a).
Proof.
  split; [|split].
  - intros l Hlen Hnum.
    destruct (six_cells l Hlen) as (a & b & c & d & e & f & ->).
    repeat match goal with
           | H : Forall _ _ |- _ => inversion H; clear H; subst
           end.
    unfold is_number in *.
    destruct a, b, c, d, e, f; try contradiction; reflexivity.
  - intros l. split; [reflexivity|].
    intros i Hi. do 6 (destruct i as [|i]; [reflexivity|]). lia.
  - intros a Hnum.
    repeat match goal with
           | H : Forall _ _ |- _ => inversion H; clear H; subst
           end.
    unfold is_number in *. destruct a as [a b c d e f]. cbn in *.
    destruct a, b, c, d, e, f; try contradiction; reflexivity.
Qed.

(** ** Collision validator: verdict and messages *)

Lemma also_loud (x y : list event * bool) :
  (x.2 = true -> x.1 <> []) -> (y.2 = true -> y.1 <> []) ->
  (also x y).2 = true -> (also x y).1 <> [].
Proof.
  unfold also. cbn [fst snd]. intros Hx Hy [H|H]%orb_true_iff Happ;
    apply app_eq_nil in Happ as [Hx1 Hy1]; [apply (Hx H Hx1)|apply (Hy H Hy1)].
Qed.

Lemma flag_loud (c : bool) (msg : message) (color : string) :
  (flag c msg color).2 = true -> (flag c msg color).1 <> [].
Proof. destruct c; [discriminate|discriminate]. Qed.

Lemma fold_also_loud (l : list (list event * bool)) (acc : list event * bool) :
  Forall (fun x => x.2 = true -> x.1 <> []) l ->
  (acc.2 = true -> acc.1 <> []) ->
  (fold_left also l acc).2 = true -> (fold_left also l acc).1 <> [].
Proof.
  revert acc. induction l as [|x l IH]; intros acc Hl Hacc; simpl; [exact Hacc|].
  inversion Hl; subst. apply IH; [assumption|]. apply also_loud; assumption.
Qed.

Lemma quickCollisionCheck_loud (a : angles) :
  (quickCollisionCheck a).2 = true -> (quickCollisionCheck a).1 <> [].
Proof.
  unfold quickCollisionCheck.
  apply also_loud; [|do 4 (apply also_loud; [apply flag_loud|])].
  - apply fold_also_loud; [|discriminate].
    apply imap_Forall. intros i x. unfold check_entry.
    destruct (JOINT_LIMITS_DEG !! i); [apply flag_loud|discriminate].
  - rewrite geometry_as_fold. apply fold_also_loud; [|discriminate].
    apply Forall_forall. intros x (p & <- & _)%list_elem_of_In%in_map_iff.
    unfold check_point. apply also_loud; apply flag_loud.
Qed.

(** X6.  For every joint angle object the validator returns a risk exactly
    when it logs at least one message, and it does nothing but log: each
    of its events is a call to [addLog] with colour [text-amber-500]. *)
Theorem quickCollisionCheck_risk_iff_logged (a : angles) :
  ((quickCollisionCheck a).2 = true <-> (quickCollisionCheck a).1 <> []) /\
  (forall ev, In ev (quickCollisionCheck a).1 ->
     exists msg, ev = addLog msg "text-amber-500").
Proof.
  split.
  - split; [apply quickCollisionCheck_loud|].
    intros Hev. destruct ((quickCollisionCheck a).2) eqn:Hrisk; [reflexivity|].
    exfalso. apply Hev. apply quickCollisionCheck_quiet. exact Hrisk.
  - intros ev Hin. apply quickCollisionCheck_events in Hin.
    destruct Hin as [H|[[_ ->]|[[_ ->]|[[_ ->]|[[_ ->]|H]]]]]; eauto.
    + apply limit_events in H as [l ->]. eauto.
    + apply geometry_events in H as (p & _ & [[_ ->]|[_ ->]]); eauto.
Qed.

Lemma angles_round_trip_witness :
  mapAnglesObjectToArray (mapAnglesArrayToObject (Num <$> [1; 2; 3; 4; 5; 6])) =
    Num <$> [1; 2; 3; 4; 5; 6] /\
  mapAnglesObjectToArray (mapAnglesArrayToObject [Num 7; NaN]) =
    [Num 7; NaN; Num 0; Num 0; Num 0; Num 0].
Proof.
  split.
  - apply (proj1 angles_round_trip (Num <$> [1; 2; 3; 4; 5; 6])); [reflexivity|].
    repeat constructor; discriminate.
  - reflexivity.
Defined.

Lemma also_nil_l (x : list event * bool) : also ([], false) x = x.
Proof. destruct x; reflexivity. Qed.

(** On real angles inside every limit and coupling rule, the validator is
    its geometric part. *)
Lemma quickCollisionCheck_geometry_only (j1 j2 j3 j4 j5 j6 : R) :
  Forall2 within JOINT_LIMITS_DEG [j1; j2; j3; j4; j5; j6] ->
  coupled [j1; j2; j3; j4; j5; j6] ->
  quickCollisionCheck (real_angles j1 j2 j3 j4 j5 j6) =
  geometryCollisionCheck (real_angles j1 j2 j3 j4 j5 j6).
Proof.
  intros Hin Hco.
  repeat match goal with
         | H : Forall2 _ _ _ |- _ => inversion H; clear H; subst
         end.
  unfold within in *; simpl in *. destruct Hco as (Hse & Hel & Hwr).
  unfold quickCollisionCheck.
  generalize (geometryCollisionCheck (real_angles j1 j2 j3 j4 j5 j6)) as g.
  intros g.
  cbn [real_angles Object_entries imap check_entry lookup list_lookup
       JOINT_LIMITS_DEG min max fold_left compose
       joint1 joint2 joint3 joint4 joint5 joint6 fst snd
       jlt jgt jadd Math_abs].
  unfold Rltb.
  repeat (rcase; try (exfalso; lra); cbn [andb orb fst snd app flag also]).
  destruct g; reflexivity.
Qed.

(** X7.  The validator after the enforcer: for any six numbers the pose
    returned by [enforceJointSafety] never triggers a limit, sum, elbow or
    wrist test of [quickCollisionCheck]; the verdict and the messages are
    those of the geometric check alone. *)
Theorem validator_after_enforcer_is_geometric (v : list jsval) :
  length v = 6%nat -> Forall is_number v ->
  exists out : list jsval,
    enforceJointSafety v = Ok out /\
    quickCollisionCheck (mapAnglesArrayToObject out) =
    geometryCollisionCheck (mapAnglesArrayToObject out).
Proof.
  intros Hlen Hnum.
  destruct (six_cells v Hlen) as (a & b & c & d & e & f & ->).
  assert (Hsame : enforceJointSafety [a; b; c; d; e; f] =
                  enforceJointSafety
                    (Num <$> [stand_in (-170) 170 a; stand_in (-15) 135 b;
                              stand_in 0 140 c; stand_in (-90) 120 d;
                              stand_in (-95) 95 e; stand_in (-180) 180 f])).
  { unfold enforceJointSafety. rewrite per_joint_clamp_numbers by assumption.
    reflexivity. }
  destruct (enforceJointSafety_Num _ (eq_refl : length
              [stand_in (-170) 170 a; stand_in (-15) 135 b; stand_in 0 140 c;
               stand_in (-90) 120 d; stand_in (-95) 95 e;
               stand_in (-180) 180 f] = 6%nat))
    as (out & Hrun & Hin & Hco & _).
  exists (Num <$> out). rewrite Hsame. split; [exact Hrun|].
  assert (Hout : length out = 6%nat).
  { apply Forall2_length in Hin. rewrite <- Hin. reflexivity. }
  destruct (six_cells out Hout) as (o1 & o2 & o3 & o4 & o5 & o6 & ->).
  apply (quickCollisionCheck_geometry_only o1 o2 o3 o4 o5 o6); assumption.
Qed.

Lemma validator_after_enforcer_is_geometric_witness :
  exists out : list jsval,
    enforceJointSafety [Num 300; NaN; Num 500; Inf false; Inf true; Num 0] = Ok out /\
    quickCollisionCheck (mapAnglesArrayToObject out) =
    geometryCollisionCheck (mapAnglesArrayToObject out).
Proof.
  apply (validator_after_enforcer_is_geometric
           [Num 300; NaN; Num 500; Inf false; Inf true; Num 0]).
  - reflexivity.
  - repeat constructor; discriminate.
Defined.

(** X8.  Every pose with shoulder, elbow and wrist roll at zero and the
    other joints inside their limits passes the validator without a
    message: the arm stands upright over the base, well above the
    pedestal clearance. *)
Theorem upright_poses_pass (j1 j5 j6 : R) :
  -170 <= j1 <= 170 -> -95 <= j5 <= 95 -> -180 <= j6 <= 180 ->
  quickCollisionCheck (real_angles j1 0 0 0 j5 j6) = ([], false).
Proof.
  intros H1 H5 H6. apply quickCollisionCheck_pass.
  - unfold JOINT_LIMITS_DEG.
    repeat (constructor 2; [unfold within; simpl; lra|]). constructor 1.
  - simpl. unfold SHOULDER_ELBOW_MIN, SHOULDER_ELBOW_MAX, ELBOW_FORWARD_MAX,
      WRIST_COUPLED_LIMIT. rewrite Rabs_R0.
    repeat split; try lra. unfold Rabs. rcase; lra.
  - apply chain_upright_clear.
Qed.

Lemma upright_poses_pass_witness :
  quickCollisionCheck (real_angles (-30) 0 0 0 30 (-30)) = ([], false).
Proof. apply (upright_poses_pass (-30) 30 (-30)); lra. Defined.

(** ** getSafeAngles *)

Lemma mapAnglesObjectToArray_numbers (a : angles) :
  length (mapAnglesObjectToArray a) = 6%nat /\
  Forall is_number (mapAnglesObjectToArray a).
Proof.
  split; [reflexivity|]. unfold mapAnglesObjectToArray, is_number.
  repeat constructor; match goal with |- nullish0 ?v <> _ => destruct v end;
    discriminate.
Qed.

Lemma to_rad_js (out : list R) :
  map (fun deg => (deg * DEG2RAD)%js) (Num <$> out) = Num <$> to_rad out.
Proof. unfold to_rad. induction out as [|x out IH]; [reflexivity|]. simpl. f_equal. exact IH. Qed.


(** ** Line sampling: degenerate sample counts *)

Lemma lerp_at_nan (a d : float) : (a + d * PrimFloat.nan)%float = PrimFloat.nan.
Proof.
  apply Prim2SF_inj.
  rewrite FloatAxioms.add_spec, FloatAxioms.mul_spec.
  change (Prim2SF PrimFloat.nan) with S754_nan.
  destruct (Prim2SF d), (Prim2SF a); reflexivity.
Qed.

(** X10.  With a sample count of 0 [sampleLinePath] returns one point whose
    three coordinates are [NaN] (the parameter is 0/0), whatever the two
    points; with a negative count it returns no point; without a count it
    samples 15 segments. *)
Theorem sampleLinePath_degenerate_counts (start goal : Binary64.point) :
  Binary64.sampleLinePath start goal (Some 0%Z) =
    [ {| Binary64.x := PrimFloat.nan; Binary64.y := PrimFloat.nan;
         Binary64.z := PrimFloat.nan |} ] /\
  (forall N : Z, (N < 0)%Z -> Binary64.sampleLinePath start goal (Some N) = []) /\
  Binary64.sampleLinePath start goal None =
    Binary64.sampleLinePath start goal (Some 15%Z).
Proof.
  split; [|split].
  - unfold Binary64.sampleLinePath. cbn [default from_option Datatypes.id].
    change (Z.to_nat (0 + 1)) with 1%nat. cbn [seq map].
    change (Binary64.of_Z (Z.of_nat 0) / Binary64.of_Z 0)%float with PrimFloat.nan.
    rewrite !lerp_at_nan. reflexivity.
  - intros N HN. unfold Binary64.sampleLinePath.
    change (default 15%Z (Some N)) with N.
    replace (Z.to_nat (N + 1)) with 0%nat by lia. reflexivity.
  - reflexivity.
Qed.

(** ** The inverse-kinematics call *)


(** ** The planner: a refused sample *)

(** The pose shoulder 90, wrist roll 90 is inside every limit and rule,
    and its end point is 49 mm under the ground plane. *)
Lemma folded_within : Forall2 within JOINT_LIMITS_DEG [0; 90; 0; 90; 0; 0].
Proof.
  unfold JOINT_LIMITS_DEG.
  repeat (constructor 2; [unfold within; simpl; lra|]). constructor 1.
Qed.

Lemma folded_coupled : coupled [0; 90; 0; 90; 0; 0].
Proof.
  simpl. unfold SHOULDER_ELBOW_MIN, SHOULDER_ELBOW_MAX, ELBOW_FORWARD_MAX,
    WRIST_COUPLED_LIMIT.
  rewrite Rabs_R0, (Rabs_pos_eq 90) by lra. repeat split; lra.
Qed.

Lemma folded_pose_refused : (quickCollisionCheck (real_angles 0 90 0 90 0 0)).2 = true.
Proof.
  rewrite quickCollisionCheck_risk.
  assert (Hgeo : (geometryCollisionCheck (real_angles 0 90 0 90 0 0)).2 = true).
  { destruct (nth_error (computeForwardPositions (real_angles 0 90 0 90 0 0)) 2)
      as [point|] eqn:Hp.
    - apply (geometry_risk _ point); [eapply nth_error_In; exact Hp|].
      revert Hp. rewrite computeForwardPositions_real. cbn [nth_error].
      intros [= <-]. cbn [KeyPoint.z jlt]. apply Rltb_true.
      replace (90 * DEG2RAD + 0 * DEG2RAD + 90 * DEG2RAD) with PI
        by (unfold DEG2RAD, Math_PI; field).
      replace (90 * DEG2RAD + 0 * DEG2RAD) with (PI / 2)
        by (unfold DEG2RAD, Math_PI; field).
      replace (90 * DEG2RAD) with (PI / 2) by (unfold DEG2RAD, Math_PI; field).
      rewrite cos_PI2, cos_PI. unfold_lengths. lra.
    - rewrite computeForwardPositions_real in Hp. discriminate Hp. }
  rewrite Hgeo. rewrite !orb_true_r. reflexivity.
Qed.

Lemma callIK_folded (p : Point.t) :
  callIK ik_folded p = ([], Ok (real_angles 0 90 0 90 0 0)).
Proof.
  unfold callIK, ik_folded.
  change (mapAnglesObjectToArray (real_angles 0 90 0 90 0 0))
    with (Num <$> [0; 90; 0; 90; 0; 0]).
  rewrite (enforceJointSafety_fixed _ folded_within folded_coupled). reflexivity.
Qed.

Lemma callIK_home (p : Point.t) :
  callIK ik_home p = ([], Ok (real_angles 0 0 0 0 0 0)).
Proof.
  unfold callIK, ik_home.
  change (mapAnglesObjectToArray (real_angles 0 0 0 0 0 0))
    with (Num <$> [0; 0; 0; 0; 0; 0]).
  rewrite (enforceJointSafety_fixed _ home_within home_coupled). reflexivity.
Qed.

Lemma trace_emit (evs : list event) (s : state) : trace (emit evs s) = trace s ++ evs.
Proof. reflexivity. Qed.



(** ** The executor: refusal and completion *)

Lemma quickCollisionCheck_only_logs (a : angles) (ev : event) :
  In ev (quickCollisionCheck a).1 -> exists msg color, ev = addLog msg color.
Proof.
  intros Hin. apply quickCollisionCheck_events in Hin.
  destruct Hin as [H|[[_ ->]|[[_ ->]|[[_ ->]|[[_ ->]|H]]]]]; eauto.
  - apply limit_events in H as [l ->]. eauto.
  - apply geometry_events in H as (p & _ & [[_ ->]|[_ ->]]); eauto.
Qed.

Lemma getSafeAngles_only_logs (a : angles) (source : message) (s : state) :
  exists evs,
    (getSafeAngles a source s).1 = emit evs s /\
    forall ev, In ev evs -> exists msg color, ev = addLog msg color.
Proof.
  unfold getSafeAngles, bind, modify, ret.
  destruct (enforceJointSafety (mapAnglesObjectToArray a)) as [safeArray|e].
  - pose proof (quickCollisionCheck_only_logs (mapAnglesArrayToObject safeArray)) as Hlogs.
    destruct (quickCollisionCheck (mapAnglesArrayToObject safeArray)) as [evs risk].
    cbn [fst snd] in *. destruct risk.
    + eexists. unfold log. rewrite emit_emit. split; [reflexivity|].
      intros ev [Hin|Hin]%in_app_or; [apply Hlogs; exact Hin|].
      destruct Hin as [<-|[]]. eauto.
    + exists evs. split; [reflexivity|exact Hlogs].
  - exists []. rewrite emit_nil. split; [reflexivity|]. intros ev [].
Qed.

(** X13.  When [getSafeAngles] refuses the pose, [updateRobotJoints] does
    nothing but log: no trajectory is started (both host queues and the
    commanded vector are as before) and every event of the call is a log
    entry, so nothing is sent to the backend. *)
Theorem updateRobotJoints_refused (a : angles) (duration : jsval) (s : state) :
  (getSafeAngles a [Str "手动控制"] s).2 = Ok None ->
  let s' := (updateRobotJoints a duration s).1 in
  (updateRobotJoints a duration s).2 = Ok tt /\
  targetAngles s' = targetAngles s /\
  frames s' = frames s /\
  timers s' = timers s /\
  exists evs,
    trace s' = trace s ++ evs /\
    forall ev, In ev evs -> exists msg color, ev = addLog msg color.
Proof.
  intros Hrefused s'. subst s'.
  destruct (getSafeAngles_only_logs a [Str "手动控制"] s) as (evs & Hs1 & Hlogs).
  unfold updateRobotJoints, bind.
  destruct (getSafeAngles a [Str "手动控制"] s) as [s1 r] eqn:Hsafe.
  cbn [fst snd] in Hrefused, Hs1. subst r s1.
  cbn [fst snd ret]. split; [reflexivity|].
  repeat split; try reflexivity.
  exists evs. split; [reflexivity|exact Hlogs].
Qed.

Lemma getSafeAngles_folded (source : message) (s : state) :
  (getSafeAngles (real_angles 0 90 0 90 0 0) source s).2 = Ok None.
Proof.
  unfold getSafeAngles, bind, modify, ret.
  change (mapAnglesObjectToArray (real_angles 0 90 0 90 0 0))
    with (Num <$> [0; 90; 0; 90; 0; 0]).
  rewrite (enforceJointSafety_fixed _ folded_within folded_coupled).
  change (mapAnglesArrayToObject (Num <$> [0; 90; 0; 90; 0; 0]))
    with (real_angles 0 90 0 90 0 0).
  rewrite folded_pose_refused. reflexivity.
Qed.

Lemma updateRobotJoints_refused_witness :
  let s' := (updateRobotJoints (real_angles 0 90 0 90 0 0) (Num 1500)
               first_run_in_flight).1 in
  (getSafeAngles (real_angles 0 90 0 90 0 0) [Str "手动控制"] first_run_in_flight).2 =
    Ok None /\
  (updateRobotJoints (real_angles 0 90 0 90 0 0) (Num 1500) first_run_in_flight).2 =
    Ok tt /\
  targetAngles s' = targetAngles first_run_in_flight /\
  frames s' = frames first_run_in_flight /\
  timers s' = timers first_run_in_flight /\
  exists evs,
    trace s' = trace first_run_in_flight ++ evs /\
    forall ev, In ev evs -> exists msg color, ev = addLog msg color.
Proof.
  intros s'.
  split; [apply getSafeAngles_folded|].
  apply (updateRobotJoints_refused (real_angles 0 90 0 90 0 0) (Num 1500)
           first_run_in_flight).
  apply getSafeAngles_folded.
Defined.

(** X14.  What a trajectory of [updateRobotJoints] sends when it ends:
    run once its duration has elapsed, the closure adds to the trace
    nothing at all when the component is not connected or the socket is
    not open, and otherwise exactly one message, [set_target] with the
    stored target position, or with [0.1, -0.2, 0.3] when none is stored.
    The joint goal of the trajectory is not part of what is sent. *)
Theorem interpolate_completion_dispatch (sa ga : list R) (t0 d0 : R) (st : state) :
  length sa = length ga -> 0 < d0 -> t0 + d0 <= now st ->
  trace (run_callback (interpolate (Num <$> sa) (Num <$> ga) t0 (Num d0)) st) =
    trace st ++
    (if connected st && ws_ready st
     then [ws_send (set_target
                      match targetEndEffectorPos st with
                      | Some p => [Point.x p; Point.y p; Point.z p]
                      | None => [Num 0.1; Num (-0.2); Num 0.3]
                      end)]
     else []).
Proof.
  intros Hlen Hd0 Hend. cbn [run_callback].
  rewrite run_interpolate_real by (assumption || lia). cbv zeta.
  assert (Hp : 1 <= (now st - t0) / d0).
  { apply (Rmult_le_reg_r d0); [assumption|]. field_simplify; lra. }
  rewrite Rmin_right by lra. destruct (Rlt_dec 1 1); [lra|].
  unfold sendCommand. cbn [set_targetAngles connected ws_ready targetEndEffectorPos].
  destruct (connected st), (ws_ready st); cbn [andb trace set_targetAngles];
    rewrite ?app_nil_r; reflexivity.
Qed.

Lemma interpolate_completion_dispatch_witness :
  let zeros := [0; 0; 0; 0; 0; 0] in
  let goal := to_rad [90; 0; 0; 0; 0; 0] in
  length zeros = length goal /\ 0 < 1500 /\ 0 + 1500 <= now (set_now 1500 online_state) /\
  trace (run_callback (interpolate (Num <$> zeros) (Num <$> goal) 0 (Num 1500))
           (set_now 1500 online_state)) =
    [ws_send (set_target [Num 0.1; Num (-0.2); Num 0.3])].
Proof.
  intros zeros goal.
  assert (Hd : 0 < 1500) by lra.
  assert (Hend : 0 + 1500 <= now (set_now 1500 online_state))
    by (cbn [now set_now]; lra).
  split; [reflexivity|]. split; [exact Hd|]. split; [exact Hend|].
  exact (interpolate_completion_dispatch zeros goal 0 1500
           (set_now 1500 online_state) eq_refl Hd Hend).
Defined.

(** ** The planner: a plan that goes through *)

Lemma plan_loop_all_pass (ik : ik_oracle) (path : list Point.t) (i : nat)
    (jointPath : list angles) (s : state) :
  Forall (fun p => exists a, (callIK ik p).2 = Ok a /\
                             (quickCollisionCheck a).2 = false) path ->
  exists joints,
    Forall2 (fun p a => (callIK ik p).2 = Ok a /\
                        (quickCollisionCheck a).2 = false) path joints /\
    plan_loop ik path i jointPath s = (s, planned (jointPath ++ joints)).
Proof.
  revert i jointPath. induction path as [|p path IH]; intros i jp Hall.
  - exists []. split; [constructor|]. simpl. rewrite app_nil_r. reflexivity.
  - inversion Hall as [|? ? (a & Hcall & Hrisk) Hrest]; subst.
    destruct (IH (S i) (jp ++ [a]) Hrest) as (joints & Hall2 & Hrun).
    exists (a :: joints). split; [constructor 2; [split; assumption|exact Hall2]|].
    cbn [plan_loop].
    assert (Hev : (callIK ik p).1 = []).
    { revert Hcall. unfold callIK.
      destruct (match ik p with
                | ik_throws e => Throw e
                | ik_result true a0 _ =>
                    obind (enforceJointSafety (mapAnglesObjectToArray a0))
                      (fun safeAngles => Ok (mapAnglesArrayToObject safeAngles))
                | ik_result false _ m => _
                end); [reflexivity|discriminate]. }
    rewrite Hev, Hcall, (quickCollisionCheck_quiet a Hrisk), Hrisk.
    rewrite !emit_nil, Hrun. rewrite <- app_assoc. reflexivity.
Qed.



(** ** The path executor: short paths *)

(** X16.  A joint path of fewer than two waypoints is not animated.  With
    no waypoint [executeJointPath] returns at once and the commanded
    vector stays; with one waypoint its first run writes that waypoint, in
    radians, and ends.  In both cases no animation frame is requested, and
    [moveToTarget] goes on at once: it logs the arrival and, when the
    socket is open, sends [move_to_position] with the target. *)
Theorem executeJointPath_short_paths (a : angles) (d : R) (target : Point.t)
    (s : state) :
  0 < d ->
  let arrival :=
    [addLog [Str "[OK] 到达目标位置"] "text-emerald-400"] ++
    (if connected s && ws_ready s
     then [ws_send (json_of (move_to_position target))] else []) in
  let s0 := executeJointPath [] (Num d) target s in
  let s1 := executeJointPath [a] (Num d) target s in
  (targetAngles s0 = targetAngles s /\ frames s0 = frames s /\
   trace s0 = trace s ++ arrival) /\
  (targetAngles s1 = angles_to_rad (fun j => j a) /\ frames s1 = frames s /\
   trace s1 = trace s ++ arrival).
Proof.
  intros Hd arrival s0 s1. subst arrival s0 s1.
  assert (Hafter : forall st,
    connected st = connected s -> ws_ready st = ws_ready s -> trace st = trace s ->
    targetAngles (after_path target st) = targetAngles st /\
    frames (after_path target st) = frames st /\
    trace (after_path target st) =
      trace s ++ [addLog [Str "[OK] 到达目标位置"] "text-emerald-400"] ++
      (if connected s && ws_ready s
       then [ws_send (json_of (move_to_position target))] else [])).
  { intros st Hc Hw Ht. unfold after_path, sendCommand, log, emit.
    cbn [connected ws_ready set_trace trace]. rewrite Hc, Hw, Ht.
    destruct (connected s), (ws_ready s);
      cbn [andb targetAngles frames trace emit set_trace app];
      rewrite <- ?app_assoc; repeat split; reflexivity. }
  split.
  - cbn [executeJointPath]. apply Hafter; reflexivity.
  - cbn [executeJointPath]. unfold run_animate_path. cbn [length].
    rewrite progress_real by assumption.
    cbn [jmul Math_floor].
    replace (Rmin ((now s - now s) / d) 1 * (INR 1 - 1)) with (INR 0)
      by (simpl; ring).
    rewrite Int_part_INR. cbn [jge jle].
    change (Z.of_nat 0) with 0%Z. change (INR 1) with 1.
    rewrite Rltb_false by lra. cbn [negb Nat.sub lookup list_lookup].
    destruct (Hafter (set_targetAngles (angles_to_rad (fun j => j a)) s)
                eq_refl eq_refl eq_refl) as (Ht & Hf & Htr).
    rewrite Ht, Hf, Htr. repeat split; reflexivity.
Qed.

Lemma executeJointPath_short_paths_witness :
  let target := real_point 0.15 0 0.3 in
  let s1 := executeJointPath [real_angles 90 0 0 0 0 0] (Num 2000) target online_state in
  0 < 2000 /\
  targetAngles s1 = angles_to_rad (fun j => j (real_angles 90 0 0 0 0 0)) /\
  frames s1 = [] /\
  trace s1 = [ addLog [Str "[OK] 到达目标位置"] "text-emerald-400";
               ws_send (json_of (move_to_position target)) ].
Proof.
  intros target s1.
  assert (Hd : 0 < 2000) by lra.
  split; [exact Hd|].
  exact (proj2 (executeJointPath_short_paths (real_angles 90 0 0 0 0 0) 2000 target
                  online_state Hd)).
Defined.
